(** * Tiny Instagram load-test scripts: timeline.py and delete.py

    A shallow embedding of the two scripts of the repository and the
    properties their specification states about them.

    - [get_timeline], [execute_timeline_request], [run_user_requests],
      [run_single_test], [run_load_test], [export_to_csv] and [main]
      come from [timeline.py];
    - [delete_all_posts] comes from [delete.py].

    The Datastore client is an external collaborator: it is a record of
    answer functions, and every call made to it is logged, so that the
    order in which the code talks to it can be stated. *)

From Stdlib Require Import ZArith QArith Qround Qpower String Ascii List Sorted Permutation Lia.
From Stdlib Require Import DecimalString DecimalZ.
From stdpp Require Import base option list gmap strings.
From Equations Require Import Equations.

Local Open Scope string_scope.
Local Open Scope list_scope.
Local Open Scope Z_scope.

(** ** Exceptions and logged calls *)

(** What an [except Exception] clause catches: an instance of a class
    derived from [Exception], carrying the text that [str(e)] returns. *)
Inductive exn : Type :=
| Exception (msg : string).

Definition str_exn (e : exn) : string :=
  match e with Exception msg => msg end.

Inductive outcome (A : Type) : Type :=
| Returns (a : A)
| Raises (e : exn).
Arguments Returns {A} a.
Arguments Raises {A} e.

(** ** Data model *)

(** A [Post] entity: the two properties the code reads, and its key. *)
Record Post : Type := mkPost {
  post_key : nat;
  author : string;
  created : Z
}.

(** A [User] entity; [follows] is [None] when the property is not set,
    which is what [user_entity.get('follows', [])] defaults on. *)
Record User : Type := mkUser {
  follows : option (list string)
}.

(** The calls [get_timeline] makes to the Datastore client. *)
Inductive call : Type :=
| CallGet (user : string)
| CallGql (authors : list string) (limit : Z)
| CallQueryIn (authors : list string) (limit : Z)
| CallQueryEq (an_author : string) (limit : Z).

(** The client: [gql] is [None] when [hasattr(client, 'gql')] is false.
    Each answer is either a value or a raised exception. *)
Record Client : Type := mkClient {
  client_get : string -> outcome (option User);
  client_gql : option (list string -> Z -> outcome (list Post));
  client_query_in : list string -> Z -> outcome (list Post);
  client_query_eq : string -> Z -> outcome (list Post)
}.

(** ** A computation that logs its client calls and may raise *)

Definition Py (A : Type) : Type := (list call * outcome A)%type.

Definition py_ret {A} (a : A) : Py A := ([], Returns a).

Definition py_bind {A B} (m : Py A) (k : A -> Py B) : Py B :=
  match m with
  | (log, Returns a) => let '(log', r) := k a in (log ++ log', r)
  | (log, Raises e) => (log, Raises e)
  end.

(** [try: m except Exception as e: h e] *)
Definition try_except {A} (m : Py A) (h : exn -> Py A) : Py A :=
  match m with
  | (log, Returns a) => (log, Returns a)
  | (log, Raises e) => let '(log', r) := h e in (log ++ log', r)
  end.

Definition perform {A} (c : call) (answer : outcome A) : Py A := ([c], answer).

Definition calls {A} (m : Py A) : list call := fst m.
Definition result {A} (m : Py A) : outcome A := snd m.

Notation "x <~ m ;; k" := (py_bind m (fun x => k))
  (at level 100, m at next level, right associativity, only parsing).

(** ** get_timeline *)

(** [list({*follows, user})]: the deduplicated follow-set, listed in the
    iteration order of the set. *)
Definition follow_set (user_entity : option User) (user : string) : list string :=
  let follows :=
    match user_entity with
    | Some e => default [] (follows e)
    | None => []
    end in
  elements (list_to_set follows ∪ {[ user ]} : gset string).

(** [sorted(posts, key=lambda p: p.get('created'), reverse=True)]: a stable
    sort, greatest [created] first. *)
Fixpoint insert_desc (p : Post) (l : list Post) : list Post :=
  match l with
  | [] => [p]
  | q :: l' => if created p <? created q then q :: insert_desc p l' else p :: q :: l'
  end.

Fixpoint sorted_created_desc (posts : list Post) : list Post :=
  match posts with
  | [] => []
  | p :: l => insert_desc p (sorted_created_desc l)
  end.

(** [l[:limit]] for a Python int [limit]: a negative bound counts from the
    end of the list. *)
Definition slice_to {A} (limit : Z) (l : list A) : list A :=
  if 0 <=? limit then take (Z.to_nat limit) l
  else take (length l - Z.to_nat (- limit)) l.

(** The loop of the third strategy: one query per author, results
    accumulated with [posts.extend]. *)
Fixpoint fan_out (client : Client) (authors : list string) (limit : Z)
    (posts : list Post) : Py (list Post) :=
  match authors with
  | [] => py_ret posts
  | a :: rest =>
      fetched <~ perform (CallQueryEq a limit) (client_query_eq client a limit) ;;
      fan_out client rest limit (posts ++ fetched)
  end.

Definition get_timeline (client : Client) (user : string) (limit : Z) : Py (list Post) :=
  if String.eqb user "" then py_ret []
  else
    user_entity <~ perform (CallGet user) (client_get client user) ;;
    let follows := follow_set user_entity user in
    attempt <~ try_except
      (match client_gql client with
       | Some gql =>
           timeline <~ perform (CallGql follows limit) (gql follows limit) ;;
           py_ret (timeline, true)
       | None => py_ret ([], false)
       end)
      (fun _ => py_ret ([], false)) ;;
    let '(timeline, used_gql) := attempt in
    if used_gql : bool then py_ret timeline
    else
      try_except
        (perform (CallQueryIn follows limit) (client_query_in client follows limit))
        (fun _ =>
           posts <~ fan_out client follows limit [] ;;
           py_ret (slice_to limit (sorted_created_desc posts))).

(** ** The three strategies, as the specification names them *)

(** Strategy 1 exists only when the client has the [gql] capability. *)
Definition strategy_gql (client : Client) (authors : list string) (limit : Z)
    : list (Py (list Post)) :=
  match client_gql client with
  | Some gql => [perform (CallGql authors limit) (gql authors limit)]
  | None => []
  end.

Definition strategy_in (client : Client) (authors : list string) (limit : Z)
    : Py (list Post) :=
  perform (CallQueryIn authors limit) (client_query_in client authors limit).

Definition strategy_fan_out (client : Client) (authors : list string) (limit : Z)
    : Py (list Post) :=
  posts <~ fan_out client authors limit [] ;;
  py_ret (slice_to limit (sorted_created_desc posts)).

(** The specification's combinator: try each strategy in turn, use the
    first that does not raise, and let only the last one's error out. *)
Fixpoint spec_try_in_order {A} (strategies : list (Py A)) (final : Py A) : Py A :=
  match strategies with
  | [] => final
  | s :: rest =>
      match s with
      | (log, Returns a) => (log, Returns a)
      | (log, Raises _) =>
          let '(log', r) := spec_try_in_order rest final in (log ++ log', r)
      end
  end.

(** ** execute_timeline_request and run_user_requests *)

(** The environment of one request: the client as it answers during that
    request, and the two readings of [time.time()], taken before the call
    to [get_timeline] and after it returned or raised.  Readings are in
    seconds; a float is held as the rational number it denotes. *)
Record World : Type := mkWorld {
  w_client : Client;
  t_start : Q;
  t_stop : Q
}.

(** The dictionary [execute_timeline_request] returns. *)
Record RequestResult : Type := mkRequestResult {
  r_user : string;
  r_duration : Q;
  r_success : bool;
  r_posts_count : nat;
  r_error : option string
}.

Definition execute_timeline_request (w : World) (user : string) (limit : Z)
    : Py RequestResult :=
  let start := t_start w in
  try_except
    (timeline <~ get_timeline (w_client w) user limit ;;
     let duration := (t_stop w - start)%Q in
     py_ret {| r_user := user; r_duration := duration; r_success := true;
               r_posts_count := length timeline; r_error := None |})
    (fun e =>
     let duration := (t_stop w - start)%Q in
     py_ret {| r_user := user; r_duration := duration; r_success := false;
               r_posts_count := 0; r_error := Some (str_exn e) |}).

(** [range(n)] for a Python int [n]: empty when [n <= 0]. *)
Definition py_range (n : Z) : list nat := seq 0 (Z.to_nat n).

Fixpoint run_requests (worlds : list World) (user : string) (limit : Z)
    (results : list RequestResult) : Py (list RequestResult) :=
  match worlds with
  | [] => py_ret results
  | w :: rest =>
      r <~ execute_timeline_request w user limit ;;
      run_requests rest user limit (results ++ [r])
  end.

(** [env k] is the environment of the [k]-th request of this user. *)
Definition run_user_requests (env : nat -> World) (user : string)
    (num_requests limit : Z) : Py (list RequestResult) :=
  run_requests (map env (py_range num_requests)) user limit [].

(** ** Python's [str] and [int] on integers *)

Definition py_str (z : Z) : string := NilZero.string_of_int (Z.to_int z).

(** A Python [str] is held as its UTF-8 encoding, the encoding in which
    the script reads and writes the CSV file: a [string] is the sequence
    of the bytes, and [code_points] gives back the characters.  A
    [string] that is not well-formed UTF-8 stands for no [str]. *)

(** The six low bits of a continuation byte [10xxxxxx]. *)
Definition continuation (c : ascii) : option N :=
  let n := N_of_ascii c in
  if ((128 <=? n) && (n <? 192))%N then Some (n - 128)%N else None.

Fixpoint code_points (s : string) : option (list N) :=
  match s with
  | EmptyString => Some []
  | String c rest =>
      let n := N_of_ascii c in
      if (n <? 128)%N then cons n <$> code_points rest
      else if (n <? 192)%N then None
      else if (n <? 224)%N then
        match rest with
        | String c1 rest1 =>
            match continuation c1 with
            | Some x1 =>
                let cp := ((n - 192) * 64 + x1)%N in
                if (128 <=? cp)%N then cons cp <$> code_points rest1 else None
            | None => None
            end
        | _ => None
        end
      else if (n <? 240)%N then
        match rest with
        | String c1 (String c2 rest2) =>
            match continuation c1, continuation c2 with
            | Some x1, Some x2 =>
                let cp := ((n - 224) * 4096 + x1 * 64 + x2)%N in
                if ((2048 <=? cp) && negb ((55296 <=? cp) && (cp <? 57344)))%N
                then cons cp <$> code_points rest2 else None
            | _, _ => None
            end
        | _ => None
        end
      else
        match rest with
        | String c1 (String c2 (String c3 rest3)) =>
            match continuation c1, continuation c2, continuation c3 with
            | Some x1, Some x2, Some x3 =>
                let cp := ((n - 240) * 262144 + x1 * 4096 + x2 * 64 + x3)%N in
                if ((65536 <=? cp) && (cp <=? 1114111))%N
                then cons cp <$> code_points rest3 else None
            | _, _, _ => None
            end
        | _ => None
        end
  end.

(** The characters [str.isspace] holds of. *)
Definition unicode_space (c : N) : bool :=
  ((9 <=? c) && (c <=? 13) || (28 <=? c) && (c <=? 32) || (c =? 133) || (c =? 160)
   || (c =? 5760) || (8192 <=? c) && (c <=? 8202) || (c =? 8232) || (c =? 8233)
   || (c =? 8239) || (c =? 8287) || (c =? 12288))%N.

(** The digit zero of each of the 66 scripts with decimal digits (Unicode
    14, the version of CPython 3.11); the nine other digits of a script
    follow its zero. *)
Definition decimal_zeros : list N :=
  [48; 1632; 1776; 1984; 2406; 2534; 2662; 2790; 2918; 3046; 3174; 3302; 3430;
   3558; 3664; 3792; 3872; 4160; 4240; 6112; 6160; 6470; 6608; 6784; 6800; 6992;
   7088; 7232; 7248; 42528; 43216; 43264; 43472; 43504; 43600; 44016; 65296;
   66720; 68912; 69734; 69872; 69942; 70096; 70384; 70736; 70864; 71248; 71360;
   71472; 71904; 72016; 72784; 73040; 73120; 92768; 92864; 93008; 120782; 120792;
   120802; 120812; 120822; 123200; 123632; 125264; 130032]%N.

(** The value of the decimal digit [c], if it is one. *)
Definition unicode_decimal (c : N) : option N :=
  (fun zero => (c - zero)%N) <$>
    List.find (fun zero => ((zero <=? c) && (c <? zero + 10))%N) decimal_zeros.

(** What [int] does first with a [str] that is not all ASCII: the
    characters below 127 stay, a blank becomes a space, a decimal digit
    its ASCII digit, and at any other character the string is cut after
    a question mark. *)
Fixpoint to_ascii (chars : list N) : string :=
  match chars with
  | [] => EmptyString
  | c :: rest =>
      if (c <? 127)%N then String (ascii_of_N c) (to_ascii rest)
      else if unicode_space c then String " " (to_ascii rest)
      else match unicode_decimal c with
           | Some d => String (ascii_of_N (48 + d)) (to_ascii rest)
           | None => "?"
           end
  end.

Definition decimal_and_space_to_ascii (s : string) : option string :=
  match code_points s with
  | Some chars => Some (if forallb (fun c => (c <? 128)%N) chars then s else to_ascii chars)
  | None => None
  end.

(** The blanks the parser of the ASCII form skips around the number: tab,
    LF, VT, FF, CR and the space; the separators FS, GS, RS and US (28
    to 31) are not among them. *)
Definition is_space (c : ascii) : bool :=
  let n := nat_of_ascii c in
  ((9 <=? n) && (n <=? 13) || (n =? 32))%nat.

Fixpoint lstrip (s : string) : string :=
  match s with
  | String c rest => if is_space c then lstrip rest else s
  | EmptyString => EmptyString
  end.

Fixpoint rstrip (s : string) : string :=
  match s with
  | EmptyString => EmptyString
  | String c rest =>
      match rstrip rest with
      | EmptyString => if is_space c then EmptyString else String c EmptyString
      | kept => String c kept
      end
  end.

(** Decimal digits with single underscores between digits, as [int]
    accepts them; [after_digit] tells whether the previous character was
    a digit. *)
Fixpoint int_digits (s : string) (after_digit : bool) : option Decimal.uint :=
  match s with
  | EmptyString => if after_digit then Some Decimal.Nil else None
  | String c rest =>
      if Ascii.eqb c "_" then (if after_digit then int_digits rest false else None)
      else uint_of_char c (int_digits rest true)
  end.

(** The parser of the ASCII form, in base 10: blanks, a sign, the digits,
    blanks. *)
Definition long_from_string (s : string) : option Z :=
  match rstrip (lstrip s) with
  | String "-" digits => (fun d => - Z.of_uint d) <$> int_digits digits false
  | String "+" digits => Z.of_uint <$> int_digits digits false
  | digits => Z.of_uint <$> int_digits digits false
  end.

(** [int(s)] for a string [s]; [None] stands for the [ValueError].  The
    limit that recent interpreters put on the number of digits (4300
    unless configured otherwise) is not modelled. *)
Definition py_int (s : string) : option Z :=
  match decimal_and_space_to_ascii s with
  | Some ascii_form => long_from_string ascii_form
  | None => None
  end.

(** ** The CSV file *)

Definition csv_row : Type := list string.

(** The output path.  [content] is [None] when [os.path.isfile] is false,
    and otherwise the rows the [csv] reader finds in the file; the file
    is taken to end with a line terminator, so that appended rows are
    rows of their own.  [can_read] and [can_append] tell whether
    [open(.., 'r')] with the decoding of the whole file, and
    [open(.., 'a')] with the writes, succeed. *)
Record path_state : Type := mkPath {
  content : option (list csv_row);
  can_read : bool;
  can_append : bool
}.

Definition header : csv_row := ["PARAM"; "AVG_TIME"; "RUN"; "FAILED"].

(** One row as [csv.DictReader] yields it: the last column of a name
    wins, and the columns the row is too short for are [None]. *)
Definition dict_row (fieldnames row : csv_row) : gmap string (option string) :=
  let zipped := foldl (fun d kv => <[ kv.1 := Some kv.2 ]> d) ∅ (zip fieldnames row) in
  foldl (fun d key => <[ key := None ]> d) zipped (drop (length row) fieldnames).

(** [list(csv.DictReader(csvfile))]: the first row names the columns and
    blank rows are skipped. *)
Definition dict_reader (rows : list csv_row) : list (gmap string (option string)) :=
  match rows with
  | [] => []
  | fieldnames :: data =>
      map (dict_row fieldnames) (List.filter (fun r => negb (bool_decide (r = []))) data)
  end.

(** [[int(r['RUN']) for r in rows if r['PARAM'] == str(param)]] *)
Fixpoint matching_rows (rows : list (gmap string (option string))) (param : Z)
    : outcome (list Z) :=
  match rows with
  | [] => Returns []
  | r :: rest =>
      match r !! "PARAM" with
      | None => Raises (Exception "'PARAM'")
      | Some p =>
          if bool_decide (p = Some (py_str param)) then
            match r !! "RUN" with
            | None => Raises (Exception "'RUN'")
            | Some None => Raises (Exception "int() argument must be a string")
            | Some (Some run) =>
                match py_int run with
                | None => Raises (Exception "invalid literal for int()")
                | Some n =>
                    match matching_rows rest param with
                    | Returns ns => Returns (n :: ns)
                    | Raises e => Raises e
                    end
                end
            end
          else matching_rows rest param
      end
  end.

Definition py_max (first : Z) (others : list Z) : Z := foldl Z.max first others.

(** The scan for the run number, inside its [try]. *)
Definition next_run_number (output_file : path_state) (param : Z) : Z :=
  match content output_file with
  | None => 1
  | Some rows =>
      if can_read output_file then
        match matching_rows (dict_reader rows) param with
        | Returns (n :: ns) => py_max n ns + 1
        | Returns [] => 1
        | Raises _ => 1
        end
      else 1
  end.

(** ** export_to_csv *)

Definition Qsum (l : list Q) : Q := foldr Qplus 0%Q l.

(** [statistics.mean], on a non-empty list. *)
Definition mean (l : list Q) : Q := (Qsum l / inject_Z (Z.of_nat (length l)))%Q.

Definition successful (results : list RequestResult) : list RequestResult :=
  List.filter r_success results.

Definition failed (results : list RequestResult) : list RequestResult :=
  List.filter (fun r => negb (r_success r)) results.

(** [int(x)] for a number [x]: the fraction is dropped, towards zero. *)
Definition int_trunc (x : Q) : Z := Z.quot (Qnum x) (Zpos (Qden x)).

(** *** Floats

    A Python float is an IEEE 754 double; a finite double is a rational
    number, and an operation on doubles returns the double nearest to
    the exact result, the one with an even significand in case of a tie.
    Durations are differences of clock readings, far from the overflow
    threshold [2^1024], beyond which [int] would raise: infinities are
    not modelled. *)

(** The integer nearest to [y], the even one in case of a tie. *)
Definition round_half_even (y : Q) : Z :=
  let f := Qfloor y in
  match (y - inject_Z f ?= 1 # 2)%Q with
  | Lt => f
  | Gt => f + 1
  | Eq => if Z.even f then f else f + 1
  end.

(** For [0 < x], the exponent [e] with [2^e <= x < 2^(e+1)]. *)
Definition binade (x : Q) : Z :=
  let e0 := Z.log2 (Qnum x) - Z.log2 (Zpos (Qden x)) in
  if Qle_bool (2 ^ e0) x then e0 else e0 - 1.

(** The double nearest to [0 < x]: a significand of 53 bits, or fewer
    below [2^-1022], where the doubles are the multiples of [2^-1074]. *)
Definition round_positive (x : Q) : Q :=
  let q := Z.max (binade x - 52) (-1074) in
  (inject_Z (round_half_even (x * 2 ^ (- q))) * 2 ^ q)%Q.

Definition round_double (x : Q) : Q :=
  match Qnum (Qred x) with
  | Z0 => 0%Q
  | Zpos _ => round_positive (Qred x)
  | Zneg _ => (- round_positive (- Qred x))%Q
  end.

(** [x * y] on floats. *)
Definition double_mul (x y : Q) : Q := round_double (x * y).

(** [statistics.mean] on floats: the sum is exact, and the quotient by
    the count is rounded once. *)
Definition double_mean (l : list Q) : Q := round_double (mean l).

(** [r_duration] holds the exact difference of the two clock readings;
    the float that [time.time() - start] leaves in the record is the
    double nearest to it, taken here where the value is used. *)
Definition duration_ms (r : RequestResult) : Q :=
  double_mul (round_double (r_duration r)) 1000.

Definition avg_time_ms (results : list RequestResult) : Z :=
  match successful results with
  | [] => 0
  | succ => int_trunc (double_mean (map duration_ms succ))
  end.

Definition failed_flag (results : list RequestResult) : Z :=
  if (0 <? length (failed results))%nat then 1 else 0.

(** The row of one iteration, as [csv.writer] writes it. *)
Definition data_row (param avg run flag : Z) : csv_row :=
  [py_str param; py_str avg ++ "ms"; py_str run; py_str flag]%string.

Definition export_to_csv (results : list RequestResult)
    (concurrent_users requests_per_user limit : Z) (output_file : path_state)
    : path_state :=
  match results with
  | [] => output_file
  | _ =>
      let avg := avg_time_ms results in
      let param := concurrent_users in
      let flag := failed_flag results in
      let file_exists := bool_decide (is_Some (content output_file)) in
      let run_number := next_run_number output_file param in
      if can_append output_file then
        let old := default [] (content output_file) in
        let written :=
          (if file_exists then [] else [header]) ++ [data_row param avg run_number flag] in
        {| content := Some (old ++ written);
           can_read := can_read output_file;
           can_append := can_append output_file |}
      else output_file
  end.

(** ** run_single_test, run_load_test and main *)

(** What one iteration of the load test meets: the environment of the
    [k]-th request of each user, and the order in which [as_completed]
    hands back the tasks it was given.  The tasks run in parallel, so the
    calls they make to the client interleave and are not logged here. *)
Record Iteration : Type := mkIteration {
  it_env : string -> nat -> World;
  it_completed : list string -> list string
}.

(** [[f"{user_prefix}{i}" for i in range(1, concurrent_users + 1)]] *)
Definition user_names (user_prefix : string) (concurrent_users : Z) : list string :=
  map (fun i => (user_prefix ++ py_str (Z.of_nat i))%string)
      (seq 1 (Z.to_nat concurrent_users)).

(** [future.result()] of the task of one user; a task that raised is
    reported on the console and adds nothing. *)
Definition task_results (it : Iteration) (requests_per_user limit : Z)
    (user : string) : list RequestResult :=
  match result (run_user_requests (it_env it user) user requests_per_user limit) with
  | Returns results => results
  | Raises _ => []
  end.

(** [ThreadPoolExecutor(max_workers=n)] raises a [ValueError] for [n <= 0]. *)
Definition run_single_test (concurrent_users requests_per_user : Z)
    (user_prefix : string) (limit : Z) (it : Iteration)
    : outcome (list RequestResult) :=
  let names := user_names user_prefix concurrent_users in
  if concurrent_users <=? 0 then
    Raises (Exception "max_workers must be greater than 0")
  else
    Returns (flat_map (task_results it requests_per_user limit) (it_completed it names)).

(** The loop of [run_load_test] over its iterations; the state is the
    output file.  [print_results] only writes to the console. *)
Fixpoint run_iterations (its : list Iteration)
    (concurrent_users requests_per_user : Z) (user_prefix : string) (limit : Z)
    (output_file : path_state) : path_state * outcome unit :=
  match its with
  | [] => (output_file, Returns tt)
  | it :: rest =>
      match run_single_test concurrent_users requests_per_user user_prefix limit it with
      | Raises e => (output_file, Raises e)
      | Returns all_results =>
          run_iterations rest concurrent_users requests_per_user user_prefix limit
            (export_to_csv all_results concurrent_users requests_per_user limit output_file)
      end
  end.

(** [env i] is what iteration [i] meets, for [i] in [range(1, iterations + 1)]. *)
Definition run_load_test (env : nat -> Iteration)
    (concurrent_users requests_per_user : Z) (user_prefix : string) (limit : Z)
    (output_file : path_state) (iterations : Z) : path_state * outcome unit :=
  run_iterations (map env (seq 1 (Z.to_nat iterations)))
    concurrent_users requests_per_user user_prefix limit output_file.

(** The parsed command line; [output] names the file whose state is
    threaded through [main]. *)
Record Args : Type := mkArgs {
  arg_concurrent_users : Z;
  arg_requests_per_user : Z;
  arg_user_prefix : string;
  arg_limit : Z
}.

Definition main (env : nat -> Iteration) (args : Args) (output_file : path_state)
    : path_state * outcome unit :=
  if (arg_concurrent_users args <=? 0) || (arg_requests_per_user args <=? 0) then
    (output_file, Returns tt)
  else
    run_load_test env (arg_concurrent_users args) (arg_requests_per_user args)
      (arg_user_prefix args) (arg_limit args) output_file 3.

(** ** delete_all_posts *)

(** The [Post] entities of the Datastore, by key.  One pass of the loop
    fetches at most [batch_size] keys and deletes them in a transaction;
    the pass sizes are the numbers the script prints. *)
Definition fetch_keys (batch_size : nat) (store : gset nat) : list nat :=
  take batch_size (elements store).

Definition delete_keys (keys : list nat) (store : gset nat) : gset nat :=
  store ∖ list_to_set keys.

Lemma delete_keys_smaller batch_size store k ks :
  fetch_keys batch_size store = k :: ks ->
  (size (delete_keys (k :: ks) store) < size store)%nat.
Proof.
  intros H. apply subset_size. unfold delete_keys.
  assert (Hk : k ∈ store).
  { apply elem_of_elements. apply (subseteq_take batch_size).
    unfold fetch_keys in H. rewrite H. left. }
  split; [apply subseteq_difference_l; reflexivity|].
  intros Hsub. apply Hsub in Hk as Hk'.
  apply elem_of_difference in Hk' as [_ Hk']. apply Hk'.
  apply elem_of_list_to_set. left.
Qed.

Definition inspect {A} (a : A) : {b : A | a = b} := exist _ a eq_refl.

#[local] Obligation Tactic := idtac.

(** The [while True] loop: [passes] collects the size of each delete
    pass; the loop stops at the first fetch that returns nothing. *)
Equations delete_loop (batch_size : nat) (store : gset nat) (passes : list nat)
    : list nat * gset nat by wf (size store) lt :=
  delete_loop batch_size store passes with inspect (fetch_keys batch_size store) := {
    | exist _ nil _ => (passes, store)
    | exist _ (cons k ks) fetched =>
        delete_loop batch_size (delete_keys (k :: ks) store) (passes ++ [length (k :: ks)]) }.
Next Obligation.
  intros batch_size store k ks fetched _ _.
  exact (delete_keys_smaller batch_size store k ks fetched).
Qed.

Definition delete_all_posts (batch_size : nat) (store : gset nat) : list nat * gset nat :=
  delete_loop batch_size store [].

(** ** Vocabulary of the statements *)

(** [p] comes before [q] in a timeline: it is not older. *)
Definition desc (p q : Post) : Prop := created q <= created p.

(** The posts of [l] created at [t], in the order of [l]. *)
Definition with_created (t : Z) (l : list Post) : list Post :=
  List.filter (fun p => created p =? t) l.

(** The calls strategy 1 makes: one when the client has [gql], none otherwise. *)
Definition gql_calls (client : Client) (authors : list string) (limit : Z) : list call :=
  flat_map calls (strategy_gql client authors limit).

(** Strategy 1 did not produce a timeline: the capability is missing, or
    the attempt raised. *)
Definition gql_fails (client : Client) (authors : list string) (limit : Z) : Prop :=
  match client_gql client with
  | Some gql => exists e, gql authors limit = Raises e
  | None => True
  end.

(** The authors a call asks about are the follow-set [authors] of [user]. *)
Definition call_about (user : string) (authors : list string) (c : call) : Prop :=
  match c with
  | CallGet u => u = user
  | CallGql a _ => a = authors
  | CallQueryIn a _ => a = authors
  | CallQueryEq a _ => a ∈ authors
  end.

(** ** Sample clients and users *)

Definition sample_post (key : nat) (an_author : string) (at_time : Z) : Post :=
  {| post_key := key; author := an_author; created := at_time |}.

(** carol follows bob (twice) and alice. *)
Definition carol_entity : User := {| follows := Some ["bob"; "alice"; "bob"] |}.

(** A client without [gql], whose IN-filter query is not supported and
    whose per-author query returns two posts of the author. *)
Definition fan_out_client : Client := {|
  client_get := fun _ => Returns (Some carol_entity);
  client_gql := None;
  client_query_in := fun _ _ => Raises (Exception "IN filter not supported");
  client_query_eq := fun a _ =>
    Returns [sample_post 1 a 10; sample_post 2 a (30 + Z.of_nat (String.length a))]
|}.

(** A client on which every query raises. *)
Definition failing_client : Client := {|
  client_get := fun _ => Returns None;
  client_gql := Some (fun _ _ => Raises (Exception "gql failed"));
  client_query_in := fun _ _ => Raises (Exception "IN filter not supported");
  client_query_eq := fun _ _ => Raises (Exception "backend unavailable")
|}.

(** No character of [s] is one that [int] strips. *)
Fixpoint no_space (s : string) : Prop :=
  match s with
  | EmptyString => True
  | String c rest => is_space c = false /\ no_space rest
  end.

(** One summary line of the CSV file, as numbers. *)
Record Summary : Type := mkSummary {
  s_param : Z;
  s_avg : Z;
  s_run : Z;
  s_failed : Z
}.

Definition summary_row (s : Summary) : csv_row :=
  data_row (s_param s) (s_avg s) (s_run s) (s_failed s).

(** The RUN values of the summaries of parameter [p], in file order. *)
Definition runs_of (p : Z) (summaries : list Summary) : list Z :=
  map s_run (List.filter (fun s => s_param s =? p) summaries).

(** The run number after the runs [runs] of a parameter. *)
Definition run_after (runs : list Z) : Z :=
  match runs with
  | [] => 1
  | n :: ns => py_max n ns + 1
  end.

(** The summary [export_to_csv] adds to a file holding [summaries]. *)
Definition summary_of (results : list RequestResult) (concurrent_users : Z)
    (summaries : list Summary) : Summary :=
  {| s_param := concurrent_users;
     s_avg := avg_time_ms results;
     s_run := run_after (runs_of concurrent_users summaries);
     s_failed := failed_flag results |}.

(** A file that only [export_to_csv] wrote: absent before the first
    export, the header and one row per summary afterwards; readable and
    open to appending. *)
Definition written_by_exports (output_file : path_state) (summaries : list Summary) : Prop :=
  can_read output_file = true /\ can_append output_file = true /\
  content output_file =
    match summaries with
    | [] => None
    | _ => Some (header :: map summary_row summaries)
    end.

(** One call of [export_to_csv], by its arguments. *)
Record Export : Type := mkExport {
  e_results : list RequestResult;
  e_concurrent_users : Z;
  e_requests_per_user : Z;
  e_limit : Z
}.

Definition export_one (output_file : path_state) (e : Export) : path_state :=
  export_to_csv (e_results e) (e_concurrent_users e) (e_requests_per_user e)
    (e_limit e) output_file.

(** Successive exports to the same path. *)
Definition export_all (exports : list Export) (output_file : path_state) : path_state :=
  foldl export_one output_file exports.

(** A path with no file yet, where files can be created, read and appended to. *)
Definition fresh_path : path_state :=
  {| content := None; can_read := true; can_append := true |}.

Definition file_rows (output_file : path_state) : list csv_row :=
  default [] (content output_file).

(** The RUN column of the data rows whose PARAM column is [str(p)]. *)
Definition run_fields (p : Z) (rows : list csv_row) : list (option string) :=
  map (fun row => row !! 2%nat)
      (List.filter (fun row => bool_decide (row !! 0%nat = Some (py_str p))) (drop 1 rows)).

Definition exports_of (p : Z) (exports : list Export) : list Export :=
  List.filter (fun e => e_concurrent_users e =? p) exports.

(** [1, 2, ..., n] *)
Definition one_to (n : nat) : list Z := map Z.of_nat (seq 1 n).

(** The rows one export adds to the file. *)
Definition appended (results : list RequestResult)
    (concurrent_users requests_per_user limit : Z) (output_file : path_state)
    : list csv_row :=
  drop (length (file_rows output_file))
       (file_rows (export_to_csv results concurrent_users requests_per_user limit output_file)).

(** The file exists and starts with the header row. *)
Definition has_header (output_file : path_state) : Prop :=
  exists rest, content output_file = Some (header :: rest).

(** Evaluating the comprehension on the row [d] raises: there is no PARAM
    column, or the row is one of parameter [p] and its RUN is missing or
    is not an integer. *)
Definition row_raises (d : gmap string (option string)) (p : Z) : Prop :=
  d !! "PARAM" = None \/
  (d !! "PARAM" = Some (Some (py_str p)) /\
   (d !! "RUN" = None \/ d !! "RUN" = Some None \/
    exists run, d !! "RUN" = Some (Some run) /\ py_int run = None)).

(** ** Sample results and files *)

Definition ok_result (user : string) (duration : Q) : RequestResult :=
  {| r_user := user; r_duration := duration; r_success := true;
     r_posts_count := 5; r_error := None |}.

Definition failed_result (user : string) (duration : Q) : RequestResult :=
  {| r_user := user; r_duration := duration; r_success := false;
     r_posts_count := 0; r_error := Some "backend unavailable" |}.

(** The double nearest to 0.009, a request of nine milliseconds. *)
Definition nine_ms : Q := 5188146770730811 # 576460752303423488.

(** An existing file of zero bytes. *)
Definition empty_file : path_state :=
  {| content := Some []; can_read := true; can_append := true |}.

(** A file where the second row of parameter 3 has a RUN that is not a
    number, between rows of runs 7 and 9. *)
Definition damaged_file : path_state :=
  {| content := Some [header; ["3"; "10ms"; "7"; "0"]; ["3"; "12ms"; "x"; "0"];
                      ["3"; "11ms"; "9"; "1"]];
     can_read := true; can_append := true |}.

(** A file where the RUN that is not a number stands in a row of
    parameter 4, before a row of parameter 3 with run 7. *)
Definition damaged_elsewhere : path_state :=
  {| content := Some [header; ["4"; "12ms"; "x"; "0"]; ["3"; "10ms"; "7"; "0"]];
     can_read := true; can_append := true |}.

(** Sample fields, as UTF-8: the Arabic-Indic digit three (U+0663), and a
    7 after a no-break space (U+00A0) and after the separator FS. *)
Definition arabic_three : string :=
  String (ascii_of_nat 217) (String (ascii_of_nat 163) EmptyString).

Definition nbsp_seven : string :=
  String (ascii_of_nat 194) (String (ascii_of_nat 160) "7").

Definition fs_seven : string := String (ascii_of_nat 28) "7".

(** Three exports: two of parameter 3 around one of parameter 5. *)
Definition sample_exports : list Export :=
  [ {| e_results := [ok_result "user1" (1 # 3)]; e_concurrent_users := 3;
       e_requests_per_user := 1; e_limit := 20 |};
    {| e_results := [failed_result "user1" (1 # 2)]; e_concurrent_users := 5;
       e_requests_per_user := 1; e_limit := 20 |};
    {| e_results := [ok_result "user1" (1 # 4); failed_result "user2" 1];
       e_concurrent_users := 3; e_requests_per_user := 1; e_limit := 20 |} ].

(** The scan of the rows [rows] for parameter [p] raises. *)
Definition scan_raises (rows : list csv_row) (p : Z) : Prop :=
  exists e, matching_rows (dict_reader rows) p = Raises e.

(** [as_completed] hands back every task it was given, once. *)
Definition fair (it : Iteration) : Prop :=
  forall names, Permutation (it_completed it names) names.

(** The row an iteration leaves in the file: the summary of its results. *)
Definition iteration_row (concurrent_users requests_per_user : Z) (user_prefix : string)
    (limit : Z) (it : Iteration) (row : csv_row) : Prop :=
  exists results run,
    run_single_test concurrent_users requests_per_user user_prefix limit it
      = Returns results /\
    results <> [] /\
    row = data_row concurrent_users (avg_time_ms results) run (failed_flag results).

(** The header, written by the first of [n] exports to a missing file. *)
Definition header_if_missing (output_file : path_state) (n : nat) : list csv_row :=
  match n, content output_file with
  | S _, None => [header]
  | _, _ => []
  end.

(** An iteration in which every request fails after a quarter of a second,
    and tasks complete in reverse order. *)
Definition failing_iteration : Iteration := {|
  it_env := fun _ _ => {| w_client := failing_client; t_start := 0; t_stop := 1 # 4 |};
  it_completed := @rev string
|}.

Definition sample_args : Args := {|
  arg_concurrent_users := 2;
  arg_requests_per_user := 2;
  arg_user_prefix := "user";
  arg_limit := 20
|}.

(** The sizes of the delete passes on [n] entities, [b] at a time. *)
Fixpoint batches (fuel n b : nat) : list nat :=
  match fuel with
  | O => []
  | S fuel' => if (n =? 0)%nat then [] else Nat.min b n :: batches fuel' (n - Nat.min b n) b
  end.

(** A store of 1200 [Post] entities. *)
Definition store_1200 : gset nat := list_to_set (seq 0 1200).

(** ** More sample clients *)

(** A client whose entity lookup raises. *)
Definition unreachable_client : Client := {|
  client_get := fun _ => Raises (Exception "datastore unreachable");
  client_gql := None;
  client_query_in := fun _ _ => Returns [];
  client_query_eq := fun _ _ => Returns []
|}.

(** Like [fan_out_client], but the per-author query of alice raises. *)
Definition alice_fails_client : Client := {|
  client_get := fun _ => Returns (Some carol_entity);
  client_gql := None;
  client_query_in := fun _ _ => Raises (Exception "IN filter not supported");
  client_query_eq := fun a _ =>
    if String.eqb a "alice" then Raises (Exception "alice unavailable")
    else Returns [sample_post 1 a 10]
|}.

(** ** More vocabulary *)

(** What every record of [execute_timeline_request] satisfies: a success
    carries no error text, a failure carries one and counts no post. *)
Definition coherent (r : RequestResult) : Prop :=
  (r_success r = true <-> r_error r = None) /\
  (r_success r = false -> r_posts_count r = 0%nat).

(** Two iterations that meet the same requests, whatever the order in
    which their tasks complete. *)
Definition same_requests (it1 it2 : Iteration) : Prop :=
  forall user k, it_env it1 user k = it_env it2 user k.

(** A world in which the timeline of every user is empty. *)
Definition quiet_world : World := {|
  w_client := {| client_get := fun _ => Returns None;
                 client_gql := None;
                 client_query_in := fun _ _ => Returns [];
                 client_query_eq := fun _ _ => Returns [] |};
  t_start := 0;
  t_stop := 1 # 10
|}.

(** Two iterations on [quiet_world], completing in opposite orders. *)
Definition quiet_iteration : Iteration :=
  {| it_env := fun _ _ => quiet_world; it_completed := fun names => names |}.

Definition quiet_iteration_reversed : Iteration :=
  {| it_env := fun _ _ => quiet_world; it_completed := @rev string |}.

(** A path on which nothing can be written. *)
Definition read_only_path : path_state :=
  {| content := Some [header]; can_read := true; can_append := false |}.

(** A well-formed file with two runs of parameter 3 and one of parameter 5. *)
Definition three_row_file : path_state :=
  {| content := Some [header; ["3"; "10ms"; "4"; "0"]; ["5"; "12ms"; "1"; "0"];
                      ["3"; "11ms"; "2"; "1"]];
     can_read := true; can_append := true |}.

(** The row an export writes when its run number is 1. *)
Definition first_run_row (e : Export) : csv_row :=
  data_row (e_concurrent_users e) (avg_time_ms (e_results e)) 1 (failed_flag (e_results e)).

(** ** print_results *)

(** What [print_results] writes to the console, line by line, with the
    values the f-strings format: durations are printed with two
    ([:.2f]) or three ([:.3f]) decimals, the banner is a row of 70 [=]. *)
Inductive console_line : Type :=
| NothingToAnalyse
| AllRequestsFailed
| FailureOf (user : string) (error : option string)
| Banner
| ResultsTitle (iteration : Z)
| TotalDuration (seconds : Q)
| SucceededOutOf (succeeded total : nat)
| FailedCount (n : nat)
| ResponseTimeTitle
| MeanResponseTime (seconds : Q)
| ErrorsTitle (n : nat)
| ErrorCount (count : nat) (error : option string).

(** [error_summary[err] = error_summary.get(err, 0) + 1] on a dict, which
    keeps its keys in the order of their first insertion. *)
Fixpoint count_error (err : option string) (summary : list (option string * nat))
    : list (option string * nat) :=
  match summary with
  | [] => [(err, 1%nat)]
  | (key, count) :: rest =>
      if bool_decide (key = err) then (key, S count) :: rest
      else (key, count) :: count_error err rest
  end.

Definition error_summary (failed_results : list RequestResult)
    : list (option string * nat) :=
  foldl (fun summary r => count_error (r_error r) summary) [] failed_results.

Definition print_results (results : list RequestResult) (total_duration : Q)
    (iteration : Z) : list console_line :=
  match results with
  | [] => [NothingToAnalyse]
  | _ =>
      match successful results with
      | [] =>
          AllRequestsFailed ::
          map (fun r => FailureOf (r_user r) (r_error r)) (failed results)
      | succeeded =>
          let durations := map (fun r => round_double (r_duration r)) succeeded in
          [Banner; ResultsTitle iteration; Banner;
           TotalDuration total_duration;
           SucceededOutOf (length succeeded) (length results);
           FailedCount (length (failed results));
           ResponseTimeTitle;
           MeanResponseTime (double_mean durations)] ++
          match failed results with
          | [] => []
          | _ =>
              ErrorsTitle (length (failed results)) ::
              map (fun entry => ErrorCount (snd entry) (fst entry))
                  (error_summary (failed results))
          end
      end
  end.

(** The number of records of [results] that failed with the error [err]. *)
Definition failures_with (err : option string) (results : list RequestResult) : nat :=
  length (List.filter (fun r => negb (r_success r) && bool_decide (r_error r = err)) results).

(** The distinct members of [l], in the order of their first occurrence. *)
Definition first_seen (l : list (option string)) : list (option string) :=
  foldl (fun seen x => if bool_decide (x ∈ seen) then seen else seen ++ [x]) [] l.

(** The count a summary holds for [err]; 0 when [err] is not a key. *)
Fixpoint summary_count (err : option string) (summary : list (option string * nat)) : nat :=
  match summary with
  | [] => 0
  | (key, count) :: rest =>
      if bool_decide (key = err) then count else summary_count err rest
  end.

(** The records of [l] whose error is [err]. *)
Definition with_error (err : option string) (l : list RequestResult) : list RequestResult :=
  List.filter (fun r => bool_decide (r_error r = err)) l.

(** The error of a console line that counts an error. *)
Definition counted_error (line : console_line) : option (option string) :=
  match line with
  | ErrorCount _ err => Some err
  | _ => None
  end.

(** Six requests of three users, both requests of user2 failing. *)
Definition user2_fails : list RequestResult :=
  [ok_result "user1" (1 # 5); failed_result "user2" (1 # 2); ok_result "user3" (1 # 4);
   ok_result "user1" (1 # 5); failed_result "user2" (1 # 2); ok_result "user3" (1 # 4)].

(** [full] passes of [b] entities, then one pass with the remainder if
    there is one. *)
Definition full_then_rest (n b : nat) : list nat :=
  (repeat b (n / b) ++ (if n mod b =? 0 then [] else [n mod b]))%nat.
(** ** Facts about the sort and the slice *)

Lemma insert_desc_perm p l : Permutation (p :: l) (insert_desc p l).
Proof.
  induction l as [|q l IH]; simpl; [reflexivity|].
  destruct (created p <? created q); [|reflexivity].
  rewrite perm_swap. now apply perm_skip.
Qed.

Lemma sorted_created_desc_perm posts : Permutation posts (sorted_created_desc posts).
Proof.
  induction posts as [|p l IH]; simpl; [reflexivity|].
  rewrite <- insert_desc_perm. now apply perm_skip.
Qed.

Lemma insert_desc_sorted p l :
  StronglySorted desc l -> StronglySorted desc (insert_desc p l).
Proof.
  induction 1 as [|q l Hl IH Hq]; simpl.
  - repeat constructor.
  - destruct (created p <? created q) eqn:E.
    + constructor; [assumption|].
      rewrite <- insert_desc_perm. constructor; [|assumption].
      apply Z.ltb_lt in E. unfold desc. lia.
    + apply Z.ltb_ge in E. constructor; [now constructor|].
      constructor; [exact E|].
      eapply Forall_impl; [exact Hq|]. unfold desc. intros; lia.
Qed.

Lemma sorted_created_desc_sorted posts : StronglySorted desc (sorted_created_desc posts).
Proof.
  induction posts as [|p l IH]; simpl; [constructor|].
  now apply insert_desc_sorted.
Qed.

(** Stability: posts with the same [created] keep their relative order. *)
Lemma insert_desc_stable t p l :
  StronglySorted desc l ->
  with_created t (insert_desc p l) = with_created t (p :: l).
Proof.
  induction 1 as [|q l Hl IH Hq]; [reflexivity|].
  unfold with_created in *.
  simpl. destruct (created p <? created q) eqn:E; [|reflexivity].
  apply Z.ltb_lt in E. simpl. rewrite IH. simpl.
  destruct (created q =? t) eqn:Eq, (created p =? t) eqn:Ep; try reflexivity.
  apply Z.eqb_eq in Eq, Ep. lia.
Qed.

Lemma sorted_created_desc_stable t posts :
  with_created t (sorted_created_desc posts) = with_created t posts.
Proof.
  induction posts as [|p l IH]; [reflexivity|].
  simpl sorted_created_desc.
  rewrite insert_desc_stable by apply sorted_created_desc_sorted.
  simpl. now rewrite IH.
Qed.

Lemma StronglySorted_take {A} (R : A -> A -> Prop) n l :
  StronglySorted R l -> StronglySorted R (take n l).
Proof.
  intros H. revert n. induction H as [|x l Hl IH Hx]; intros [|n]; simpl;
    try constructor; auto.
  now apply Forall_take.
Qed.

Lemma slice_to_nonneg {A} limit (l : list A) :
  0 <= limit -> slice_to limit l = take (Z.to_nat limit) l.
Proof. intros H. unfold slice_to. destruct (Z.leb_spec 0 limit); [reflexivity|lia]. Qed.

Lemma slice_to_is_take {A} limit (l : list A) : exists n, slice_to limit l = take n l.
Proof. unfold slice_to. destruct (0 <=? limit); eauto. Qed.

(** ** The monad of logged calls *)

Lemma py_bind_returns {A B} log (a : A) (k : A -> Py B) :
  py_bind (log, Returns a) k = (log ++ calls (k a), result (k a)).
Proof. unfold py_bind, calls, result. now destruct (k a). Qed.

Lemma py_bind_raises {A B} log e (k : A -> Py B) :
  py_bind (log, Raises e) k = (log, Raises e).
Proof. reflexivity. Qed.

Lemma try_except_raises {A} log e (h : exn -> Py A) :
  try_except (log, Raises e) h = (log ++ calls (h e), result (h e)).
Proof. unfold try_except, calls, result. now destruct (h e). Qed.

Lemma Py_eta {A} (m : Py A) : m = (calls m, result m).
Proof. now destruct m. Qed.

Lemma spec_try_returns {A} log (a : A) rest final :
  spec_try_in_order ((log, Returns a) :: rest) final = (log, Returns a).
Proof. reflexivity. Qed.

Lemma spec_try_raises {A} log e (rest : list (Py A)) final :
  spec_try_in_order ((log, Raises e) :: rest) final =
    (log ++ calls (spec_try_in_order rest final), result (spec_try_in_order rest final)).
Proof. simpl. now destruct (spec_try_in_order rest final). Qed.

Lemma spec_try_final {A} (final : Py A) : spec_try_in_order [] final = final.
Proof. reflexivity. Qed.

(** ** The fan-out loop *)

(** When every per-author query answers, the loop asks each author once,
    in the order of the follow-set, and returns the results concatenated. *)
Lemma fan_out_returns client limit (fetched : string -> list Post) authors posts :
  (forall a, a ∈ authors -> client_query_eq client a limit = Returns (fetched a)) ->
  fan_out client authors limit posts =
    (map (fun a => CallQueryEq a limit) authors,
     Returns (posts ++ flat_map fetched authors)).
Proof.
  revert posts. induction authors as [|a rest IH]; intros posts H; cbn [fan_out].
  - unfold py_ret. simpl. now rewrite app_nil_r.
  - unfold perform. rewrite (H a) by left.
    rewrite py_bind_returns, IH by (intros; apply H; now right).
    unfold calls, result. simpl. now rewrite <- app_assoc.
Qed.

(** The first per-author query that raises ends the loop with its error. *)
Lemma fan_out_raises client limit (fetched : string -> list Post) before a e after posts :
  (forall b, b ∈ before -> client_query_eq client b limit = Returns (fetched b)) ->
  client_query_eq client a limit = Raises e ->
  fan_out client (before ++ a :: after) limit posts =
    (map (fun b => CallQueryEq b limit) (before ++ [a]), Raises e).
Proof.
  revert posts. induction before as [|b rest IH]; intros posts H Ha;
    cbn [fan_out app].
  - unfold perform. now rewrite Ha.
  - unfold perform. rewrite (H b) by left.
    rewrite py_bind_returns, IH by (try assumption; intros; apply H; now right).
    reflexivity.
Qed.

Lemma fan_out_calls_about client user authors limit :
  forall l posts, l ⊆ authors ->
  Forall (call_about user authors) (calls (fan_out client l limit posts)).
Proof.
  induction l as [|a rest IH]; intros posts Hl; cbn [fan_out]; [constructor|].
  unfold perform. destruct (client_query_eq client a limit) as [ps|e].
  - rewrite py_bind_returns. simpl. constructor.
    + simpl. apply Hl. left.
    + apply IH. intros x Hx. apply Hl. now right.
  - simpl. constructor; [|constructor]. simpl. apply Hl. left.
Qed.

(** ** get_timeline, unfolded once *)

Lemma get_timeline_unfold client user limit user_entity :
  user <> "" ->
  client_get client user = Returns user_entity ->
  let authors := follow_set user_entity user in
  get_timeline client user limit =
    (CallGet user ::
       calls (spec_try_in_order
                (strategy_gql client authors limit ++ [strategy_in client authors limit])
                (strategy_fan_out client authors limit)),
     result (spec_try_in_order
               (strategy_gql client authors limit ++ [strategy_in client authors limit])
               (strategy_fan_out client authors limit))).
Proof.
  intros Hu Hget authors. unfold get_timeline.
  destruct (String.eqb_spec user "") as [->|_]; [congruence|].
  unfold perform at 1. rewrite Hget, py_bind_returns. fold authors.
  unfold strategy_gql, strategy_in, strategy_fan_out.
  destruct (client_gql client) as [gql|]; simpl.
  - destruct (gql authors limit) as [tl|e]; simpl; [reflexivity|].
    destruct (client_query_in client authors limit) as [tl|e2]; simpl; [reflexivity|].
    destruct (py_bind (fan_out client authors limit []) _); reflexivity.
  - destruct (client_query_in client authors limit) as [tl|e2]; simpl; [reflexivity|].
    destruct (py_bind (fan_out client authors limit []) _); reflexivity.
Qed.

Lemma fan_out_only_queries_eq client limit authors posts :
  Forall (fun c => exists a, c = CallQueryEq a limit)
         (calls (fan_out client authors limit posts)).
Proof.
  revert posts. induction authors as [|a rest IH]; intros posts; cbn [fan_out];
    [constructor|].
  unfold perform. destruct (client_query_eq client a limit) as [ps|e].
  - rewrite py_bind_returns. simpl. constructor; eauto.
  - simpl. constructor; eauto.
Qed.

Lemma strategy_fan_out_calls client authors limit :
  calls (strategy_fan_out client authors limit) = calls (fan_out client authors limit []).
Proof.
  unfold strategy_fan_out.
  rewrite (Py_eta (fan_out client authors limit [])) at 1.
  destruct (result (fan_out client authors limit [])) as [ps|e].
  - rewrite py_bind_returns. simpl. apply app_nil_r.
  - reflexivity.
Qed.

Lemma gql_calls_absent client authors limit :
  client_gql client = None -> gql_calls client authors limit = [].
Proof. unfold gql_calls, strategy_gql. now intros ->. Qed.

Lemma gql_calls_present client authors limit gql :
  client_gql client = Some gql -> gql_calls client authors limit = [CallGql authors limit].
Proof. unfold gql_calls, strategy_gql. now intros ->. Qed.

(** When strategy 1 yields nothing, the resolver goes on with strategy 2,
    and with strategy 3 when that one raises. *)
Lemma get_timeline_after_gql client user limit user_entity :
  user <> "" ->
  client_get client user = Returns user_entity ->
  let authors := follow_set user_entity user in
  gql_fails client authors limit ->
  get_timeline client user limit =
    (CallGet user :: gql_calls client authors limit ++
       calls (spec_try_in_order [strategy_in client authors limit]
                (strategy_fan_out client authors limit)),
     result (spec_try_in_order [strategy_in client authors limit]
               (strategy_fan_out client authors limit))).
Proof.
  intros Hu Hget authors Hfail.
  rewrite (get_timeline_unfold client user limit user_entity Hu Hget). fold authors.
  unfold gql_fails, gql_calls, strategy_gql in *.
  destruct (client_gql client) as [gql|]; [|reflexivity].
  destruct Hfail as [e He]. cbn [app]. unfold perform at 1 2 3.
  rewrite He. rewrite (@spec_try_raises (list Post)). reflexivity.
Qed.

Lemma get_timeline_in_case client user limit user_entity timeline :
  user <> "" ->
  client_get client user = Returns user_entity ->
  let authors := follow_set user_entity user in
  gql_fails client authors limit ->
  client_query_in client authors limit = Returns timeline ->
  get_timeline client user limit =
    (CallGet user :: gql_calls client authors limit ++ [CallQueryIn authors limit],
     Returns timeline).
Proof.
  intros Hu Hget authors Hfail Hq.
  rewrite (get_timeline_after_gql client user limit user_entity Hu Hget Hfail).
  fold authors. unfold strategy_in, perform.
  rewrite Hq. now rewrite (@spec_try_returns (list Post)).
Qed.

Lemma get_timeline_fan_out_case client user limit user_entity e2 :
  user <> "" ->
  client_get client user = Returns user_entity ->
  let authors := follow_set user_entity user in
  let fan := strategy_fan_out client authors limit in
  gql_fails client authors limit ->
  client_query_in client authors limit = Raises e2 ->
  get_timeline client user limit =
    (CallGet user :: gql_calls client authors limit ++
       CallQueryIn authors limit :: calls fan, result fan).
Proof.
  intros Hu Hget authors fan Hfail Hq.
  rewrite (get_timeline_after_gql client user limit user_entity Hu Hget Hfail).
  fold authors fan. unfold strategy_in, perform.
  rewrite Hq. now rewrite (@spec_try_raises (list Post)), spec_try_final.
Qed.

(** C1. In [get_timeline] the strategies are tried in strict order: the
    query-language call is made only when the client has the capability,
    and comes first; the IN-filter query is made only when strategy 1 was
    not available or raised; the per-author queries are made only when
    strategy 2 raised as well.  The errors of strategies 1 and 2 never
    reach the caller, and an error of strategy 3 is the error of
    [get_timeline]. *)
Theorem get_timeline_strategy_order client user limit user_entity :
  user <> "" ->
  client_get client user = Returns user_entity ->
  let authors := follow_set user_entity user in
  let fan := strategy_fan_out client authors limit in
  let attempts :=
    spec_try_in_order
      (strategy_gql client authors limit ++ [strategy_in client authors limit]) fan in
  get_timeline client user limit = (CallGet user :: calls attempts, result attempts)
  /\ (client_gql client = None ->
      forall a l, CallGql a l ∉ calls (get_timeline client user limit))
  /\ (forall gql timeline,
      client_gql client = Some gql -> gql authors limit = Returns timeline ->
      get_timeline client user limit =
        ([CallGet user; CallGql authors limit], Returns timeline))
  /\ (forall timeline,
      gql_fails client authors limit ->
      client_query_in client authors limit = Returns timeline ->
      get_timeline client user limit =
        (CallGet user :: gql_calls client authors limit ++ [CallQueryIn authors limit],
         Returns timeline))
  /\ (forall e2,
      gql_fails client authors limit ->
      client_query_in client authors limit = Raises e2 ->
      get_timeline client user limit =
        (CallGet user :: gql_calls client authors limit ++
           CallQueryIn authors limit :: calls fan,
         result fan))
  /\ (forall e2 e3,
      gql_fails client authors limit ->
      client_query_in client authors limit = Raises e2 ->
      result fan = Raises e3 ->
      result (get_timeline client user limit) = Raises e3).
Proof.
  intros Hu Hget authors fan attempts.
  pose proof (fun timeline =>
    get_timeline_in_case client user limit user_entity timeline Hu Hget) as Hin.
  pose proof (fun e2 =>
    get_timeline_fan_out_case client user limit user_entity e2 Hu Hget) as Hfan.
  cbv zeta in Hin, Hfan. fold authors in Hin, Hfan. fold fan in Hfan.
  split; [exact (get_timeline_unfold client user limit user_entity Hu Hget)|].
  split.
  { intros Hnone a l Hin'.
    assert (Hfail : gql_fails client authors limit) by (unfold gql_fails; now rewrite Hnone).
    destruct (client_query_in client authors limit) as [tl|e2] eqn:Hq.
    - rewrite (Hin _ Hfail eq_refl), gql_calls_absent in Hin' by assumption.
      simpl in Hin'. apply elem_of_cons in Hin' as [?|Hin']; [discriminate|].
      apply elem_of_cons in Hin' as [?|Hin']; [discriminate|].
      now apply elem_of_nil in Hin'.
    - rewrite (Hfan _ Hfail eq_refl), gql_calls_absent in Hin' by assumption.
      simpl in Hin'. apply elem_of_cons in Hin' as [?|Hin']; [discriminate|].
      apply elem_of_cons in Hin' as [?|Hin']; [discriminate|].
      unfold fan in Hin'. rewrite strategy_fan_out_calls in Hin'.
      pose proof (fan_out_only_queries_eq client limit authors []) as Hall.
      rewrite Forall_forall in Hall. destruct (Hall _ Hin') as [? ?]. discriminate. }
  split.
  { intros gql tl Hgql Hres.
    rewrite (get_timeline_unfold client user limit user_entity Hu Hget). fold authors.
    unfold strategy_gql. rewrite Hgql. cbn [app]. unfold perform at 1 2.
    rewrite Hres. now rewrite (@spec_try_returns (list Post)). }
  split; [exact Hin|]. split; [exact Hfan|].
  intros e2 e3 Hfail Hq Hres. now rewrite (Hfan _ Hfail Hq).
Qed.

Lemma get_timeline_strategy_order_witness :
  result (get_timeline failing_client "carol" 20) = Raises (Exception "backend unavailable").
Proof.
  assert (Huser : "carol" <> "") by discriminate.
  assert (Hget : client_get failing_client "carol" = Returns None) by reflexivity.
  destruct (get_timeline_strategy_order failing_client "carol" 20 None Huser Hget)
    as (_ & _ & _ & _ & _ & Hraise).
  apply (Hraise (Exception "IN filter not supported")).
  - exists (Exception "gql failed"). reflexivity.
  - reflexivity.
  - vm_compute. reflexivity.
Defined.

(** C2. When strategy 1 yields nothing and strategy 2 raises, and the
    per-author queries answer, [get_timeline] returns the concatenation
    of the per-author results, sorted by [created] with the greatest
    first (a stable sort: a permutation, in descending order, equal
    timestamps in their original order), cut to its first [limit]
    elements; the result has at most [limit] elements.  [limit] is a
    number of posts, so not negative. *)
Theorem get_timeline_fan_out_merge client user limit user_entity e2
    (fetched : string -> list Post) :
  user <> "" ->
  client_get client user = Returns user_entity ->
  0 <= limit ->
  let authors := follow_set user_entity user in
  gql_fails client authors limit ->
  client_query_in client authors limit = Raises e2 ->
  (forall a, a ∈ authors -> client_query_eq client a limit = Returns (fetched a)) ->
  let gathered := flat_map fetched authors in
  let merged := sorted_created_desc gathered in
  get_timeline client user limit =
    (CallGet user :: gql_calls client authors limit ++
       CallQueryIn authors limit :: map (fun a => CallQueryEq a limit) authors,
     Returns (take (Z.to_nat limit) merged))
  /\ Permutation gathered merged
  /\ StronglySorted desc merged
  /\ (forall t, with_created t merged = with_created t gathered)
  /\ StronglySorted desc (take (Z.to_nat limit) merged)
  /\ Z.of_nat (length (take (Z.to_nat limit) merged)) <= limit.
Proof.
  intros Hu Hget Hlimit authors Hfail Hq Heq gathered merged.
  split.
  - rewrite (get_timeline_fan_out_case client user limit user_entity e2 Hu Hget Hfail Hq).
    fold authors. unfold strategy_fan_out.
    rewrite (fan_out_returns client limit fetched authors [] Heq), py_bind_returns.
    simpl. rewrite app_nil_r, slice_to_nonneg by assumption. reflexivity.
  - split; [apply sorted_created_desc_perm|].
    split; [apply sorted_created_desc_sorted|].
    split; [intros t; apply sorted_created_desc_stable|].
    split; [apply StronglySorted_take, sorted_created_desc_sorted|].
    rewrite length_take. lia.
Qed.

Lemma get_timeline_fan_out_merge_witness :
  result (get_timeline fan_out_client "carol" 3) =
    Returns [sample_post 2 "carol" 35; sample_post 2 "alice" 35; sample_post 2 "bob" 33].
Proof.
  assert (Huser : "carol" <> "") by discriminate.
  assert (Hget : client_get fan_out_client "carol" = Returns (Some carol_entity))
    by reflexivity.
  assert (Hlimit : 0 <= 3) by lia.
  destruct (get_timeline_fan_out_merge fan_out_client "carol" 3 (Some carol_entity)
              (Exception "IN filter not supported")
              (fun a => [sample_post 1 a 10;
                         sample_post 2 a (30 + Z.of_nat (String.length a))])
              Huser Hget Hlimit) as (Hres & _).
  - exact I.
  - reflexivity.
  - intros a _. reflexivity.
  - rewrite Hres. vm_compute. reflexivity.
Defined.

(** ** The follow-set *)

Lemma follow_set_elem user_entity user a :
  a ∈ follow_set user_entity user <->
  a = user \/ a ∈ match user_entity with
                  | Some e => default [] (follows e)
                  | None => []
                  end.
Proof.
  unfold follow_set. rewrite elem_of_elements, elem_of_union, elem_of_list_to_set,
    elem_of_singleton. tauto.
Qed.

Lemma follow_set_absent user : follow_set None user = [user].
Proof.
  unfold follow_set. simpl.
  replace (∅ ∪ {[user]} : gset string) with ({[user]} : gset string)
    by (symmetry; apply (left_id_L ∅ (∪))).
  apply elements_singleton.
Qed.

Lemma get_timeline_calls_about client user limit user_entity :
  user <> "" ->
  client_get client user = Returns user_entity ->
  Forall (call_about user (follow_set user_entity user))
         (calls (get_timeline client user limit)).
Proof.
  intros Hu Hget.
  rewrite (get_timeline_unfold client user limit user_entity Hu Hget).
  set (authors := follow_set user_entity user).
  assert (Hfan : Forall (call_about user authors)
                   (calls (strategy_fan_out client authors limit))).
  { rewrite strategy_fan_out_calls. now apply fan_out_calls_about. }
  assert (Htail : Forall (call_about user authors)
            (calls (spec_try_in_order [strategy_in client authors limit]
                      (strategy_fan_out client authors limit)))).
  { unfold strategy_in, perform.
    destruct (client_query_in client authors limit) as [tl|e2].
    - rewrite (@spec_try_returns (list Post)). simpl. now repeat constructor.
    - rewrite (@spec_try_raises (list Post)), spec_try_final. simpl.
      constructor; [reflexivity|exact Hfan]. }
  simpl calls. constructor; [reflexivity|].
  unfold strategy_gql. destruct (client_gql client) as [gql|]; [|exact Htail].
  cbn [app]. unfold perform at 1. destruct (gql authors limit) as [tl|e].
  - rewrite (@spec_try_returns (list Post)). simpl. now repeat constructor.
  - rewrite (@spec_try_raises (list Post)). simpl. constructor; [reflexivity|exact Htail].
Qed.

(** C3. For a non-empty user identifier, the follow-set [get_timeline]
    computes contains the user, has no duplicates, holds exactly the user
    and the users the entity follows, and is the one every query of
    [get_timeline] is about; when the User entity is absent it is exactly
    the user alone. *)
Theorem follow_set_self_included client user limit user_entity :
  user <> "" ->
  client_get client user = Returns user_entity ->
  let authors := follow_set user_entity user in
  user ∈ authors
  /\ NoDup authors
  /\ (forall a, a ∈ authors <->
        a = user \/ exists e, user_entity = Some e /\ a ∈ default [] (follows e))
  /\ (user_entity = None -> authors = [user])
  /\ Forall (call_about user authors) (calls (get_timeline client user limit)).
Proof.
  intros Hu Hget authors. unfold authors.
  split; [apply follow_set_elem; now left|].
  split; [apply NoDup_elements|].
  split.
  { intros a. rewrite follow_set_elem. destruct user_entity as [e|].
    - split; (intros [?|H]; [now left|right]); eauto.
      destruct H as (e' & [= <-] & H). exact H.
    - split; (intros [?|H]; [now left|]).
      + now apply elem_of_nil in H.
      + destruct H as (? & ? & _). discriminate. }
  split; [intros ->; apply follow_set_absent|].
  now apply get_timeline_calls_about.
Qed.

Lemma follow_set_self_included_witness :
  follow_set None "carol" = ["carol"] /\
  Forall (call_about "carol" ["carol"]) (calls (get_timeline failing_client "carol" 20)).
Proof.
  assert (Huser : "carol" <> "") by discriminate.
  assert (Hget : client_get failing_client "carol" = Returns None) by reflexivity.
  destruct (follow_set_self_included failing_client "carol" 20 None Huser Hget)
    as (_ & _ & _ & Habsent & Hcalls).
  rewrite (Habsent eq_refl) in Hcalls. split; [exact (Habsent eq_refl)|exact Hcalls].
Defined.

(** ** The request runner *)

(** C4. [execute_timeline_request] never raises.  When [get_timeline]
    returns a sequence, the record has [success] true, [posts_count] the
    length of the sequence and no error; when [get_timeline] raises, the
    record has [success] false, [posts_count] 0 and the text of the
    error.  In both cases [duration] is the difference of the two clock
    readings. *)
Theorem execute_timeline_request_never_raises (w : World) (user : string) (limit : Z) :
  (exists r, result (execute_timeline_request w user limit) = Returns r)
  /\ (forall timeline,
      result (get_timeline (w_client w) user limit) = Returns timeline ->
      result (execute_timeline_request w user limit) =
        Returns {| r_user := user; r_duration := (t_stop w - t_start w)%Q;
                   r_success := true; r_posts_count := length timeline;
                   r_error := None |})
  /\ (forall e,
      result (get_timeline (w_client w) user limit) = Raises e ->
      result (execute_timeline_request w user limit) =
        Returns {| r_user := user; r_duration := (t_stop w - t_start w)%Q;
                   r_success := false; r_posts_count := 0;
                   r_error := Some (str_exn e) |}).
Proof.
  unfold execute_timeline_request.
  rewrite (Py_eta (get_timeline (w_client w) user limit)).
  destruct (result (get_timeline (w_client w) user limit)) as [tl|e].
  - rewrite py_bind_returns. simpl. split; [eauto|]. split.
    + now intros ? [= <-].
    + discriminate.
  - rewrite py_bind_raises, try_except_raises. simpl. split; [eauto|]. split.
    + discriminate.
    + now intros ? [= <-].
Qed.

(** ** [str] and [int] *)

Lemma rstrip_no_space s : no_space s -> rstrip s = s.
Proof.
  induction s as [|c rest IH]; [reflexivity|].
  intros [Hc Hrest]. simpl. rewrite (IH Hrest), Hc. now destruct rest.
Qed.

Lemma lstrip_no_space s : no_space s -> lstrip s = s.
Proof. destruct s as [|c rest]; [reflexivity|]. intros [Hc _]. simpl. now rewrite Hc. Qed.

Lemma string_of_uint_no_space d : no_space (NilEmpty.string_of_uint d).
Proof. induction d; simpl; auto. Qed.

Lemma int_digits_string_of_uint d :
  int_digits (NilEmpty.string_of_uint d) true = Some d.
Proof. induction d; simpl; rewrite ?IHd; reflexivity. Qed.

Lemma int_digits_string_of_uint_nonnil d :
  d <> Decimal.Nil -> int_digits (NilEmpty.string_of_uint d) false = Some d.
Proof.
  destruct d; [congruence| ..]; intros _; simpl;
    rewrite int_digits_string_of_uint; reflexivity.
Qed.

Lemma code_points_ascii s :
  Forall (fun c => (N_of_ascii c < 128)%N) (list_ascii_of_string s) ->
  code_points s = Some (map N_of_ascii (list_ascii_of_string s)).
Proof.
  induction s as [|c rest IH]; [reflexivity|].
  intros Hall. apply Forall_cons in Hall as [Hc Hrest].
  cbn [code_points list_ascii_of_string map].
  apply N.ltb_lt in Hc. rewrite Hc, (IH Hrest). reflexivity.
Qed.

(** A [str] of ASCII characters goes to the parser as it is. *)
Lemma decimal_and_space_to_ascii_ascii s :
  Forall (fun c => (N_of_ascii c < 128)%N) (list_ascii_of_string s) ->
  decimal_and_space_to_ascii s = Some s.
Proof.
  intros Hall. unfold decimal_and_space_to_ascii. rewrite (code_points_ascii s Hall).
  replace (forallb _ _) with true; [reflexivity|].
  symmetry. apply forallb_forall. intros n Hn.
  apply in_map_iff in Hn as (c & <- & Hc).
  rewrite List.Forall_forall in Hall. apply N.ltb_lt, Hall, Hc.
Qed.

Lemma string_of_uint_ascii d :
  Forall (fun c => (N_of_ascii c < 128)%N) (list_ascii_of_string (NilEmpty.string_of_uint d)).
Proof. induction d; simpl; constructor; try assumption; reflexivity. Qed.

Lemma py_int_unsigned d :
  d <> Decimal.Nil -> py_int (NilEmpty.string_of_uint d) = Some (Z.of_uint d).
Proof.
  intros Hd. unfold py_int.
  rewrite decimal_and_space_to_ascii_ascii by apply string_of_uint_ascii.
  unfold long_from_string.
  rewrite lstrip_no_space, rstrip_no_space by apply string_of_uint_no_space.
  pose proof (int_digits_string_of_uint_nonnil d Hd) as H.
  destruct d; [congruence| ..]; simpl in *; rewrite H; reflexivity.
Qed.

Lemma py_int_negative d :
  d <> Decimal.Nil ->
  py_int (String "-" (NilEmpty.string_of_uint d)) = Some (- Z.of_uint d).
Proof.
  intros Hd. unfold py_int.
  rewrite decimal_and_space_to_ascii_ascii
    by (constructor; [reflexivity|apply string_of_uint_ascii]).
  unfold long_from_string.
  assert (Hns : no_space (String "-" (NilEmpty.string_of_uint d)))
    by (split; [reflexivity|apply string_of_uint_no_space]).
  rewrite lstrip_no_space, rstrip_no_space by assumption.
  now rewrite (int_digits_string_of_uint_nonnil d Hd).
Qed.

Lemma pos_to_uint_nonnil p : Pos.to_uint p <> Decimal.Nil.
Proof. apply DecimalPos.Unsigned.to_uint_nonnil. Qed.

Lemma string_of_uint_nonnil d :
  d <> Decimal.Nil -> NilZero.string_of_uint d = NilEmpty.string_of_uint d.
Proof. destruct d; [congruence| ..]; reflexivity. Qed.

(** What [str] prints, [int] reads back. *)
Lemma py_int_str z : py_int (py_str z) = Some z.
Proof.
  unfold py_str. rewrite <- (DecimalZ.of_to z) at 2.
  destruct z as [|p|p]; [reflexivity| |];
    pose proof (pos_to_uint_nonnil p) as Hp;
    unfold Z.to_int; cbn [NilZero.string_of_int Z.of_int];
    rewrite (string_of_uint_nonnil _ Hp).
  - apply py_int_unsigned, Hp.
  - apply py_int_negative, Hp.
Qed.

Lemma py_str_inj a b : py_str a = py_str b -> a = b.
Proof.
  intros H. apply (f_equal py_int) in H. rewrite !py_int_str in H. congruence.
Qed.

(** [int] on some fields: blanks, a sign and underscores between digits
    are accepted, and so are the digits and blanks of other scripts; FS
    is no blank for a [str] of ASCII characters. *)
Lemma py_int_samples :
  py_int " +1_000 " = Some 1000 /\ py_int "-07" = Some (-7) /\
  py_int arabic_three = Some 3 /\ py_int nbsp_seven = Some 7 /\
  py_int fs_seven = None /\ py_int "7_" = None /\ py_int "1 2" = None /\
  py_int "x" = None /\ py_int "" = None.
Proof. vm_compute. repeat split. Qed.

(** ** Reading back the rows that [export_to_csv] writes *)

Lemma dict_row_param a b c d :
  dict_row header [a; b; c; d] !! "PARAM" = Some (Some a).
Proof. unfold dict_row, header. simpl. now simplify_map_eq. Qed.

Lemma dict_row_run a b c d :
  dict_row header [a; b; c; d] !! "RUN" = Some (Some c).
Proof. unfold dict_row, header. simpl. now simplify_map_eq. Qed.

Lemma matching_rows_summaries p summaries :
  matching_rows (map (dict_row header) (map summary_row summaries)) p =
    Returns (runs_of p summaries).
Proof.
  induction summaries as [|s rest IH]; [reflexivity|].
  cbn [map matching_rows]. unfold summary_row at 1 2, data_row.
  rewrite dict_row_param, dict_row_run. unfold runs_of in *. cbn [List.filter].
  destruct (Z.eqb_spec (s_param s) p) as [->|Hne].
  - rewrite bool_decide_eq_true_2 by reflexivity.
    rewrite py_int_str. fold (summary_row s). fold data_row. rewrite IH. reflexivity.
  - rewrite bool_decide_eq_false_2; [exact IH|].
    intros [= H]. now apply py_str_inj in H.
Qed.

Lemma dict_reader_summaries summaries :
  dict_reader (header :: map summary_row summaries) =
    map (dict_row header) (map summary_row summaries).
Proof.
  unfold dict_reader. f_equal.
  induction summaries as [|s rest IH]; [reflexivity|].
  cbn [map List.filter]. rewrite bool_decide_eq_false_2 by discriminate.
  cbn [negb]. now rewrite IH.
Qed.

Lemma next_run_number_written output_file summaries p :
  written_by_exports output_file summaries ->
  next_run_number output_file p = run_after (runs_of p summaries).
Proof.
  intros (Hr & _ & Hc). unfold next_run_number. rewrite Hc, Hr.
  destruct summaries as [|s rest]; [reflexivity|].
  rewrite dict_reader_summaries, matching_rows_summaries.
  unfold run_after. now destruct (runs_of p (s :: rest)).
Qed.

(** One export on a file written by exports adds one summary. *)
Lemma export_to_csv_written results cu rpu limit output_file summaries :
  results <> [] ->
  written_by_exports output_file summaries ->
  written_by_exports (export_to_csv results cu rpu limit output_file)
    (summaries ++ [summary_of results cu summaries]).
Proof.
  intros Hres Hw. pose proof (next_run_number_written _ _ cu Hw) as Hrun.
  destruct Hw as (Hr & Ha & Hc). unfold export_to_csv.
  destruct results as [|r results]; [congruence|]. rewrite Ha.
  split; [exact Hr|]. split; [reflexivity|]. cbn [content]. rewrite Hrun, Hc.
  destruct summaries as [|s rest].
  - reflexivity.
  - rewrite bool_decide_eq_true_2 by eauto. cbn [default app].
    unfold id. rewrite (app_comm_cons rest), map_app. reflexivity.
Qed.

(** ** Run numbers over successive exports *)

Lemma py_max_run a k :
  foldl Z.max (Z.of_nat a) (map Z.of_nat (seq (S a) k)) = Z.of_nat (a + k).
Proof.
  revert a. induction k as [|k IH]; intros a; simpl.
  - f_equal. lia.
  - replace (Z.max (Z.of_nat a) (Z.of_nat (S a))) with (Z.of_nat (S a)) by lia.
    rewrite IH. f_equal. lia.
Qed.

Lemma run_after_one_to k : run_after (one_to k) = Z.of_nat (S k).
Proof.
  unfold one_to. destruct k as [|k]; [reflexivity|].
  cbn [seq map run_after]. unfold py_max.
  rewrite (py_max_run 1 k). lia.
Qed.

Lemma one_to_S k : one_to (S k) = one_to k ++ [Z.of_nat (S k)].
Proof. unfold one_to. now rewrite seq_S, map_app. Qed.

Lemma runs_of_app p l1 l2 : runs_of p (l1 ++ l2) = runs_of p l1 ++ runs_of p l2.
Proof. unfold runs_of. now rewrite List.filter_app, map_app. Qed.

Lemma export_all_written exports :
  forall output_file summaries (done : Z -> nat),
  Forall (fun e => e_results e <> []) exports ->
  written_by_exports output_file summaries ->
  (forall p, runs_of p summaries = one_to (done p)) ->
  exists summaries',
    written_by_exports (export_all exports output_file) summaries' /\
    forall p, runs_of p summaries' = one_to (done p + length (exports_of p exports)).
Proof.
  induction exports as [|e rest IH]; intros output_file summaries done Hne Hw Hruns.
  - exists summaries. split; [exact Hw|]. intros p. simpl. now rewrite Nat.add_0_r.
  - inversion Hne as [|? ? He Hrest]; subst.
    pose proof (export_to_csv_written (e_results e) (e_concurrent_users e)
                  (e_requests_per_user e) (e_limit e) output_file summaries He Hw) as Hw'.
    destruct (IH (export_one output_file e) _
                (fun p => if e_concurrent_users e =? p then S (done p) else done p)
                Hrest Hw') as (summaries' & Hw'' & Hruns').
    + intros p. rewrite runs_of_app. unfold runs_of at 2. cbn [List.filter summary_of s_param].
      destruct (e_concurrent_users e =? p) eqn:E.
      * apply Z.eqb_eq in E. subst p. cbn [map]. unfold summary_of. cbn [s_run].
        rewrite !Hruns, run_after_one_to. symmetry. apply one_to_S.
      * simpl. now rewrite app_nil_r.
    + exists summaries'. split; [exact Hw''|]. intros p. rewrite Hruns'.
      unfold exports_of. cbn [List.filter].
      destruct (e_concurrent_users e =? p); simpl; f_equal; lia.
Qed.

Lemma summary_row_param_matches s p :
  bool_decide (summary_row s !! 0%nat = Some (py_str p)) = (s_param s =? p).
Proof.
  destruct (Z.eqb_spec (s_param s) p) as [Heq|Hne].
  - apply bool_decide_eq_true_2. now rewrite <- Heq.
  - apply bool_decide_eq_false_2. intros [= H]. now apply py_str_inj in H.
Qed.

Lemma run_fields_summaries p summaries :
  run_fields p (header :: map summary_row summaries) =
    map (fun n => Some (py_str n)) (runs_of p summaries).
Proof.
  unfold run_fields, runs_of. cbn [drop]. rewrite drop_0.
  induction summaries as [|s rest IH]; [reflexivity|].
  cbn [map List.filter]. rewrite summary_row_param_matches.
  destruct (s_param s =? p); [|exact IH].
  cbn [map]. now rewrite IH.
Qed.

(** C5. Starting from an absent output file, after any sequence of
    exports with non-empty results (and no I/O failure), the rows of each
    parameter carry the RUN values 1, 2, ..., N in file order, N being
    the number of exports made with that parameter, whatever exports of
    other parameters come in between; and at each point the next run
    number of a parameter is one more than the greatest RUN among the
    rows of that parameter, or 1 when there is none. *)
Theorem export_run_indices_round_trip (exports : list Export) (p : Z) :
  Forall (fun e => e_results e <> []) exports ->
  run_fields p (file_rows (export_all exports fresh_path)) =
    map (fun n => Some (py_str n)) (one_to (length (exports_of p exports)))
  /\ exists summaries,
      written_by_exports (export_all exports fresh_path) summaries /\
      next_run_number (export_all exports fresh_path) p =
        match runs_of p summaries with
        | [] => 1
        | n :: ns => py_max n ns + 1
        end.
Proof.
  intros Hne.
  destruct (export_all_written exports fresh_path [] (fun _ => 0%nat) Hne)
    as (summaries & Hw & Hruns).
  { repeat split. }
  { reflexivity. }
  split.
  - destruct Hw as (_ & _ & Hc). unfold file_rows.
    specialize (Hruns p). cbn [Nat.add] in Hruns. rewrite Hc, <- Hruns.
    destruct summaries as [|s rest]; [reflexivity|]. apply run_fields_summaries.
  - exists summaries. split; [exact Hw|]. now apply next_run_number_written.
Qed.

Lemma export_run_indices_round_trip_witness :
  run_fields 3 (file_rows (export_all sample_exports fresh_path)) = [Some "1"; Some "2"].
Proof.
  assert (Hne : Forall (fun e => e_results e <> []) sample_exports)
    by (repeat constructor; discriminate).
  exact (proj1 (export_run_indices_round_trip sample_exports 3 Hne)).
Defined.

(** ** What one export writes *)

Lemma py_str_not_header_name z : py_str z <> "PARAM".
Proof.
  intros H. apply (f_equal py_int) in H. rewrite py_int_str in H. discriminate.
Qed.

Lemma export_to_csv_fresh results cu rpu limit output_file :
  results <> [] ->
  can_append output_file = true ->
  content output_file = None ->
  file_rows (export_to_csv results cu rpu limit output_file) =
    [header; data_row cu (avg_time_ms results) 1 (failed_flag results)].
Proof.
  intros Hres Ha Hc. unfold export_to_csv, file_rows.
  destruct results; [congruence|].
  unfold next_run_number. rewrite Ha, Hc. reflexivity.
Qed.

Lemma export_to_csv_existing results cu rpu limit output_file rows :
  results <> [] ->
  can_append output_file = true ->
  content output_file = Some rows ->
  file_rows (export_to_csv results cu rpu limit output_file) =
    rows ++ [data_row cu (avg_time_ms results) (next_run_number output_file cu)
               (failed_flag results)].
Proof.
  intros Hres Ha Hc. unfold export_to_csv, file_rows.
  destruct results; [congruence|].
  rewrite Ha. cbn [content]. rewrite Hc.
  rewrite bool_decide_eq_true_2 by eauto. reflexivity.
Qed.

Lemma export_to_csv_io_failure results cu rpu limit output_file :
  can_append output_file = false ->
  export_to_csv results cu rpu limit output_file = output_file.
Proof. intros Ha. unfold export_to_csv. destruct results; [reflexivity|]. now rewrite Ha. Qed.

Lemma export_to_csv_no_results cu rpu limit output_file :
  export_to_csv [] cu rpu limit output_file = output_file.
Proof. reflexivity. Qed.

(** C6 as stated fails: a file that exists without a header gets no
    header. *)
Lemma header_rule_as_stated_fails :
  ~ (head (appended [ok_result "user1" (1 # 3)] 3 1 20 empty_file) = Some header <->
     (content empty_file = None \/ ~ has_header empty_file)).
Proof.
  intros [_ H].
  assert (Hhead : head (appended [ok_result "user1" (1 # 3)] 3 1 20 empty_file)
                  = Some header).
  { apply H. right. intros [rest Hc]. discriminate Hc. }
  vm_compute in Hhead. discriminate Hhead.
Qed.

(** C6, amended. An export that writes (non-empty results, no I/O
    failure) writes the header row exactly when the output file does not
    exist yet; an existing file gets the data row only, whether or not it
    starts with a header.  On a fresh path the first export writes the
    header once, followed by exactly one data row. *)
Theorem export_header_iff_file_missing results cu rpu limit output_file :
  results <> [] ->
  can_append output_file = true ->
  (head (appended results cu rpu limit output_file) = Some header <->
     content output_file = None)
  /\ (content output_file = None ->
      file_rows (export_to_csv results cu rpu limit output_file) =
        [header; data_row cu (avg_time_ms results) 1 (failed_flag results)])
  /\ (forall rows, content output_file = Some rows ->
      appended results cu rpu limit output_file =
        [data_row cu (avg_time_ms results) (next_run_number output_file cu)
           (failed_flag results)]).
Proof.
  intros Hres Ha.
  assert (Hexisting : forall rows, content output_file = Some rows ->
    appended results cu rpu limit output_file =
      [data_row cu (avg_time_ms results) (next_run_number output_file cu)
         (failed_flag results)]).
  { intros rows Hc. unfold appended.
    rewrite (export_to_csv_existing _ _ _ _ _ rows Hres Ha Hc).
    unfold file_rows. rewrite Hc. cbn [default]. apply drop_app_length. }
  split; [|split; [now apply export_to_csv_fresh|exact Hexisting]].
  split.
  - destruct (content output_file) as [rows|] eqn:Hc; [|reflexivity].
    rewrite (Hexisting rows eq_refl). intros [= H].
    now apply py_str_not_header_name in H.
  - intros Hc. unfold appended.
    rewrite (export_to_csv_fresh _ _ _ _ _ Hres Ha Hc).
    unfold file_rows. now rewrite Hc.
Qed.

Lemma export_header_iff_file_missing_witness :
  file_rows (export_to_csv [ok_result "user1" (1 # 3)] 3 1 20 fresh_path) =
    [header; ["3"; "333ms"; "1"; "0"]].
Proof.
  assert (Hres : [ok_result "user1" (1 # 3)] <> []) by discriminate.
  assert (Ha : can_append fresh_path = true) by reflexivity.
  destruct (export_header_iff_file_missing [ok_result "user1" (1 # 3)] 3 1 20
              fresh_path Hres Ha) as (_ & Hfresh & _).
  rewrite (Hfresh eq_refl). vm_compute. reflexivity.
Defined.

(** ** The average and the failed flag *)

Lemma int_trunc_comp x y : (x == y)%Q -> int_trunc x = int_trunc y.
Proof.
  unfold Qeq, int_trunc. destruct x as [a b], y as [c d]. simpl. intros H.
  rewrite <- (Z.quot_mul_cancel_r a (Zpos b) (Zpos d)) by lia.
  rewrite H, (Z.mul_comm (Zpos b)).
  apply Z.quot_mul_cancel_r; lia.
Qed.

Lemma int_trunc_le x y : (x <= y)%Q -> int_trunc x <= int_trunc y.
Proof.
  unfold Qle, int_trunc. destruct x as [a b], y as [c d]. simpl. intros H.
  rewrite <- (Z.quot_mul_cancel_r a (Zpos b) (Zpos d)) by lia.
  rewrite <- (Z.quot_mul_cancel_r c (Zpos d) (Zpos b)) by lia.
  rewrite (Z.mul_comm (Zpos d) (Zpos b)).
  apply Z.quot_le_mono; lia.
Qed.

Lemma int_trunc_inject k : int_trunc (inject_Z k) = k.
Proof. unfold int_trunc. simpl. apply Z.quot_1_r. Qed.

(** *** Rounding to a double *)

Lemma round_double_comp x y : (x == y)%Q -> round_double x = round_double y.
Proof. intros H. unfold round_double. now rewrite (Qred_complete x y H). Qed.

Lemma round_half_even_bounds y :
  Qfloor y <= round_half_even y <= Qceiling y.
Proof.
  unfold round_half_even.
  pose proof (Qle_floor_ceiling y) as Hfc. rewrite <- Zle_Qle in Hfc.
  assert (Hup : (1 # 2 <= y - inject_Z (Qfloor y))%Q -> Qfloor y + 1 <= Qceiling y).
  { intros Hhalf.
    assert (Hlt : (inject_Z (Qfloor y) < inject_Z (Qceiling y))%Q).
    { apply Qlt_le_trans with y; [|apply Qle_ceiling].
      apply Qlt_minus_iff. apply Qlt_le_trans with (1 # 2)%Q; [reflexivity|].
      setoid_replace (y + - inject_Z (Qfloor y))%Q with (y - inject_Z (Qfloor y))%Q
        using relation Qeq by ring.
      exact Hhalf. }
    rewrite <- Zlt_Qlt in Hlt. lia. }
  destruct (y - inject_Z (Qfloor y) ?= 1 # 2)%Q eqn:E.
  - apply Qeq_alt in E.
    assert (Hhalf : (1 # 2 <= y - inject_Z (Qfloor y))%Q) by (rewrite E; apply Qle_refl).
    specialize (Hup Hhalf). destruct (Z.even (Qfloor y)); lia.
  - lia.
  - apply Qgt_alt in E. specialize (Hup (Qlt_le_weak _ _ E)). lia.
Qed.

Lemma pow2_inject (s : Z) : 0 <= s -> (2 ^ s == inject_Z (2 ^ s))%Q.
Proof. intros Hs. symmetry. apply (Zpower_Qpower 2 s Hs). Qed.

Lemma pow2_pos (e : Z) : (0 < 2 ^ e)%Q.
Proof. apply Qpower_0_lt. reflexivity. Qed.

(** The exponent found by [binade] is not too large. *)
Lemma binade_le x : (0 < x)%Q -> (2 ^ binade x <= x)%Q.
Proof.
  intros Hx. unfold binade.
  set (e0 := Z.log2 (Qnum x) - Z.log2 (Zpos (Qden x))).
  destruct (Qle_bool (2 ^ e0) x) eqn:E; [now apply Qle_bool_iff|].
  destruct x as [a b]. unfold Qlt in Hx. simpl in Hx. cbn [Qnum Qden] in e0.
  assert (Ha : 0 < a) by lia.
  pose proof (Z.log2_spec a Ha) as [Hla _].
  pose proof (Z.log2_spec (Zpos b) ltac:(lia)) as [_ Hlb].
  pose proof (Z.log2_nonneg a) as Hna.
  pose proof (Z.log2_nonneg (Zpos b)) as Hnb.
  replace (e0 - 1) with (Z.log2 a - Z.succ (Z.log2 (Zpos b))) by (unfold e0; lia).
  rewrite Qpower_minus by discriminate.
  rewrite (pow2_inject (Z.log2 a)), (pow2_inject (Z.succ (Z.log2 (Zpos b)))) by lia.
  rewrite (Qmake_Qdiv a b).
  assert (Hpos : 0 < 2 ^ Z.succ (Z.log2 (Zpos b))) by (apply Z.pow_pos_nonneg; lia).
  apply Qle_shift_div_l;
    [change 0%Q with (inject_Z 0); rewrite <- Zlt_Qlt; lia|].
  unfold Qdiv. rewrite <- Qmult_assoc, (Qmult_comm (/ _)), Qmult_assoc.
  apply Qle_shift_div_r;
    [change 0%Q with (inject_Z 0); rewrite <- Zlt_Qlt; exact Hpos|].
  rewrite <- !inject_Z_mult. rewrite <- Zle_Qle. nia.
Qed.

Lemma binade_small x : (0 < x)%Q -> (x < 2 ^ 53)%Q -> binade x <= 52.
Proof.
  intros Hx Hlt. destruct (Z.le_gt_cases (binade x) 52) as [H|H]; [exact H|].
  exfalso. apply (Qlt_irrefl x). apply Qlt_le_trans with (2 ^ 53)%Q; [exact Hlt|].
  apply Qle_trans with (2 ^ binade x)%Q; [|now apply binade_le].
  apply Qpower_le_compat_l; [lia|discriminate].
Qed.

(** Below [2^53] the integers are doubles: rounding does not cross them. *)
Lemma round_positive_between x (lo hi : Z) :
  (0 < x)%Q -> (x < 2 ^ 53)%Q ->
  (inject_Z lo <= x)%Q -> (x <= inject_Z hi)%Q ->
  (inject_Z lo <= round_positive x /\ round_positive x <= inject_Z hi)%Q.
Proof.
  intros Hx Hlt Hlo Hhi. unfold round_positive.
  set (q := Z.max (binade x - 52) (-1074)).
  assert (Hq : q <= 0) by (pose proof (binade_small x Hx Hlt); unfold q; lia).
  set (s := - q). assert (Hs : 0 <= s) by (unfold s; lia).
  set (T := inject_Z (2 ^ s)).
  assert (HT : (0 < T)%Q).
  { unfold T. rewrite <- pow2_inject by exact Hs. apply pow2_pos. }
  assert (Hq2 : (2 ^ q == / T)%Q).
  { replace q with (- s) by (unfold s; lia). rewrite Qpower_opp.
    unfold T. now rewrite pow2_inject. }
  assert (Hs2 : (2 ^ s == T)%Q) by (now apply pow2_inject).
  fold s. rewrite Hq2.
  destruct (round_half_even_bounds (x * 2 ^ s)) as [Hfloor Hceil].
  split.
  - apply Qle_shift_div_l; [exact HT|].
    unfold T. rewrite <- inject_Z_mult. rewrite <- Zle_Qle.
    eapply Z.le_trans; [|exact Hfloor].
    rewrite <- (Qfloor_Z (lo * 2 ^ s)). apply Qfloor_resp_le.
    rewrite inject_Z_mult. fold T. rewrite Hs2.
    apply Qmult_le_compat_r; [exact Hlo|now apply Qlt_le_weak].
  - apply Qle_shift_div_r; [exact HT|].
    unfold T. rewrite <- inject_Z_mult. rewrite <- Zle_Qle.
    eapply Z.le_trans; [exact Hceil|].
    rewrite <- (Qceiling_Z (hi * 2 ^ s)). apply Qceiling_resp_le.
    rewrite inject_Z_mult. fold T. rewrite Hs2.
    apply Qmult_le_compat_r; [exact Hhi|now apply Qlt_le_weak].
Qed.

Lemma round_double_between x (lo hi : Z) :
  (0 <= x)%Q -> (x < 2 ^ 53)%Q ->
  (inject_Z lo <= x)%Q -> (x <= inject_Z hi)%Q ->
  (inject_Z lo <= round_double x /\ round_double x <= inject_Z hi)%Q.
Proof.
  intros Hx Hlt Hlo Hhi. unfold round_double.
  pose proof (Qred_correct x) as Hred.
  destruct (Qnum (Qred x)) as [|p|p] eqn:E.
  - assert (Hz : (x == 0)%Q).
    { rewrite <- Hred. unfold Qeq. rewrite E. reflexivity. }
    rewrite Hz in Hlo, Hhi. auto.
  - assert (Hpos : (0 < Qred x)%Q) by (unfold Qlt; rewrite E; simpl; lia).
    apply round_positive_between; [exact Hpos|rewrite Hred; assumption..].
  - exfalso. apply (Qlt_irrefl 0). apply Qle_lt_trans with x; [exact Hx|].
    rewrite <- Hred. unfold Qlt. rewrite E. simpl. lia.
Qed.

(** The truncated float mean lies between two integers that bound the
    exact mean. *)
Lemma int_trunc_double_mean_between (l : list Q) (lo hi : Z) :
  (0 <= mean l)%Q -> (mean l < 2 ^ 53)%Q ->
  (inject_Z lo <= mean l)%Q -> (mean l <= inject_Z hi)%Q ->
  lo <= int_trunc (double_mean l) <= hi.
Proof.
  intros H0 H53 Hlo Hhi. unfold double_mean.
  destruct (round_double_between (mean l) lo hi H0 H53 Hlo Hhi) as [H1 H2].
  rewrite <- (int_trunc_inject lo), <- (int_trunc_inject hi).
  split; now apply int_trunc_le.
Qed.

Lemma failed_flag_spec results :
  (failed_flag results = 1 <-> exists r, r ∈ results /\ r_success r = false) /\
  (failed_flag results = 0 <-> forall r, r ∈ results -> r_success r = true).
Proof.
  unfold failed_flag, failed.
  destruct (List.filter (fun r => negb (r_success r)) results) as [|r rest] eqn:E; simpl.
  - assert (Hall : forall r, r ∈ results -> r_success r = true).
    { intros r Hr. apply list_elem_of_In in Hr.
      destruct (r_success r) eqn:Er; [reflexivity|].
      assert (Hin : In r (List.filter (fun r => negb (r_success r)) results))
        by (apply List.filter_In; rewrite Er; auto).
      rewrite E in Hin. destruct Hin. }
    split; split; try discriminate; auto.
    intros (r & Hr & Hf). rewrite (Hall r Hr) in Hf. discriminate.
  - assert (Hin : In r (List.filter (fun r => negb (r_success r)) results))
      by (rewrite E; now left).
    apply List.filter_In in Hin as [Hin Hf]. apply list_elem_of_In in Hin.
    apply negb_true_iff in Hf.
    split; split; try discriminate; eauto.
    intros Hall. rewrite (Hall r Hin) in Hf. discriminate.
Qed.

Lemma failed_flag_no_success results :
  results <> [] -> successful results = [] -> failed_flag results = 1.
Proof.
  intros Hres Hs. apply failed_flag_spec.
  destruct results as [|r rest]; [congruence|]. exists r. split; [left|].
  destruct (r_success r) eqn:E; [|reflexivity].
  unfold successful in Hs. simpl in Hs. rewrite E in Hs. discriminate.
Qed.

Lemma avg_time_ms_float results :
  successful results <> [] ->
  avg_time_ms results = int_trunc (double_mean (map duration_ms (successful results))).
Proof.
  intros Hs. unfold avg_time_ms. now destruct (successful results).
Qed.

(** C8. An export that writes (non-empty results, no I/O failure) ends
    the file with the row of this iteration.  With no successful result
    its AVG_TIME is "0ms" and its FAILED flag 1.  With at least one
    successful result its AVG_TIME is the mean of the successful
    durations in milliseconds, as floats (each duration times 1000, then
    [statistics.mean]), truncated to a whole number; for means below
    [2^53] that is the exact mean of these millisecond values rounded
    down, or rounded up when the float mean is the next whole number.
    FAILED is 1 exactly when some result failed, and 0 otherwise. *)
Theorem export_avg_time_and_failed_flag results cu rpu limit output_file :
  results <> [] ->
  can_append output_file = true ->
  let run := next_run_number output_file cu in
  let ms := map duration_ms (successful results) in
  last (file_rows (export_to_csv results cu rpu limit output_file)) =
    Some [py_str cu; (py_str (avg_time_ms results) ++ "ms")%string; py_str run;
          py_str (failed_flag results)]
  /\ (successful results = [] ->
      last (file_rows (export_to_csv results cu rpu limit output_file)) =
        Some [py_str cu; "0ms"; py_str run; "1"])
  /\ (successful results <> [] ->
      avg_time_ms results = int_trunc (double_mean ms))
  /\ (successful results <> [] -> (0 <= mean ms)%Q -> (mean ms < 2 ^ 53)%Q ->
      Qfloor (mean ms) <= avg_time_ms results <= Qceiling (mean ms))
  /\ (failed_flag results = 1 <-> exists r, r ∈ results /\ r_success r = false)
  /\ (failed_flag results = 0 <-> forall r, r ∈ results -> r_success r = true).
Proof.
  intros Hres Ha run ms.
  assert (Hlast : last (file_rows (export_to_csv results cu rpu limit output_file)) =
    Some (data_row cu (avg_time_ms results) run (failed_flag results))).
  { destruct (content output_file) as [rows|] eqn:Hc.
    - rewrite (export_to_csv_existing _ _ _ _ _ rows Hres Ha Hc). apply last_snoc.
    - rewrite (export_to_csv_fresh _ _ _ _ _ Hres Ha Hc).
      unfold run, next_run_number. now rewrite Hc. }
  split; [exact Hlast|]. split.
  { intros Hs. rewrite Hlast, (failed_flag_no_success results Hres Hs).
    unfold avg_time_ms. now rewrite Hs. }
  split; [apply avg_time_ms_float|]. split; [|apply failed_flag_spec].
  intros Hs H0 H53. rewrite (avg_time_ms_float results Hs). fold ms.
  apply int_trunc_double_mean_between; try assumption.
  - apply Qfloor_le.
  - apply Qle_ceiling.
Qed.

Lemma export_avg_time_and_failed_flag_witness :
  last (file_rows (export_to_csv [failed_result "user1" (1 # 2); failed_result "user2" 1]
                     3 1 20 fresh_path)) = Some ["3"; "0ms"; "1"; "1"]
  /\ last (file_rows (export_to_csv [ok_result "user1" nine_ms; failed_result "user2" 1]
                        3 1 20 fresh_path)) = Some ["3"; "9ms"; "1"; "1"].
Proof.
  split.
  - assert (Hres : [failed_result "user1" (1 # 2); failed_result "user2" 1] <> [])
      by discriminate.
    assert (Ha : can_append fresh_path = true) by reflexivity.
    destruct (export_avg_time_and_failed_flag
                [failed_result "user1" (1 # 2); failed_result "user2" 1] 3 1 20
                fresh_path Hres Ha) as (_ & Hnone & _).
    exact (Hnone eq_refl).
  - assert (Hres : [ok_result "user1" nine_ms; failed_result "user2" 1] <> [])
      by discriminate.
    assert (Ha : can_append fresh_path = true) by reflexivity.
    destruct (export_avg_time_and_failed_flag
                [ok_result "user1" nine_ms; failed_result "user2" 1] 3 1 20
                fresh_path Hres Ha) as (Hrow & _).
    rewrite Hrow. vm_compute. reflexivity.
Defined.

(** ** A scan that raises *)

Lemma matching_rows_raises dicts p d :
  d ∈ dicts -> row_raises d p -> exists e, matching_rows dicts p = Raises e.
Proof.
  induction dicts as [|r rest IH]; intros Hin Hraise.
  - now apply elem_of_nil in Hin.
  - apply elem_of_cons in Hin as [<-|Hin].
    + cbn [matching_rows]. destruct Hraise as [Hp|(Hp & Hrun)]; rewrite Hp; [eauto|].
      rewrite bool_decide_eq_true_2 by reflexivity.
      destruct Hrun as [Hr|[Hr|(run & Hr & Hint)]]; rewrite Hr; eauto.
      rewrite Hint. eauto.
    + destruct (IH Hin Hraise) as [e He]. cbn [matching_rows]. rewrite He.
      destruct (r !! "PARAM") as [pv|]; [|eauto].
      destruct (bool_decide (pv = Some (py_str p))); [|eauto].
      destruct (r !! "RUN") as [[run|]|]; eauto.
      destruct (py_int run); eauto.
Qed.

Lemma matching_rows_raises_inv dicts p e :
  matching_rows dicts p = Raises e -> exists d, d ∈ dicts /\ row_raises d p.
Proof.
  revert e. induction dicts as [|r rest IH]; intros e; [discriminate|].
  cbn [matching_rows]. intros Hscan.
  assert (Hrest : (exists e', matching_rows rest p = Raises e') ->
                  exists d, d ∈ r :: rest /\ row_raises d p).
  { intros [e' He']. destruct (IH e' He') as (d & Hd & Hraise).
    exists d. split; [now right|exact Hraise]. }
  destruct (r !! "PARAM") as [pv|] eqn:Hp; [|exists r; split; [left|now left]].
  destruct (bool_decide (pv = Some (py_str p))) eqn:Hmatch; [|eauto].
  apply bool_decide_eq_true_1 in Hmatch. subst pv.
  destruct (r !! "RUN") as [[run|]|] eqn:Hrun;
    [|exists r; split; [left|right; auto]..].
  destruct (py_int run) as [n|] eqn:Hint.
  - destruct (matching_rows rest p) as [ns|e'] eqn:Hm; [discriminate|]. eauto.
  - exists r. split; [left|]. right. split; [exact Hp|]. right. right. eauto.
Qed.

Lemma foldl_insert_some_absent (key : string) (l : list (string * string)) :
  forall d : gmap string (option string),
  d !! key = None -> key ∉ map fst l ->
  foldl (fun d kv => <[ kv.1 := Some kv.2 ]> d) d l !! key = None.
Proof.
  induction l as [|[k v] l IH]; intros d Hd Hk; [exact Hd|].
  cbn [foldl fst snd]. apply IH.
  - rewrite lookup_insert_ne; [exact Hd|]. intros ->. apply Hk. simpl. left.
  - intros H. apply Hk. simpl. now right.
Qed.

Lemma zip_keys_named (key : string) (fieldnames row : list string) :
  key ∈ map fst (zip fieldnames row) -> key ∈ fieldnames.
Proof.
  revert row. induction fieldnames as [|f rest IH]; intros [|x row] H; simpl in H;
    try now apply elem_of_nil in H.
  apply elem_of_cons in H as [->|H]; [left|right; eauto].
Qed.

Lemma foldl_insert_none_absent (key : string) (l : list string) :
  forall d : gmap string (option string),
  d !! key = None -> key ∉ l ->
  foldl (fun d k => <[ k := None ]> d) d l !! key = None.
Proof.
  induction l as [|k l IH]; intros d Hd Hk; [exact Hd|].
  cbn [foldl]. apply IH.
  - rewrite lookup_insert_ne; [exact Hd|]. intros ->. apply Hk. left.
  - intros H. apply Hk. now right.
Qed.

(** A column that the header does not name is a [KeyError] on every row. *)
Lemma dict_row_missing_column fieldnames row key :
  key ∉ fieldnames -> dict_row fieldnames row !! key = None.
Proof.
  intros Hk. unfold dict_row. apply foldl_insert_none_absent.
  - apply foldl_insert_some_absent; [apply lookup_empty|].
    intros H. apply Hk. eapply zip_keys_named, H.
  - intros H. apply Hk. now apply (subseteq_drop (length row)) in H.
Qed.

Lemma next_run_number_unread output_file p :
  can_read output_file = false -> next_run_number output_file p = 1.
Proof.
  intros Hr. unfold next_run_number. rewrite Hr. now destruct (content output_file).
Qed.

Lemma next_run_number_scan_raises output_file rows p :
  content output_file = Some rows -> scan_raises rows p ->
  next_run_number output_file p = 1.
Proof.
  intros Hc [e He]. unfold next_run_number. rewrite Hc, He.
  now destruct (can_read output_file).
Qed.

(** C10 as stated fails: a RUN that is not an integer makes the scan
    raise only in a row of the current parameter.  In a row of another
    parameter it is never parsed: the scan goes on, and the run number
    follows the rows of the current parameter. *)
Lemma bad_run_of_other_param_is_skipped :
  ~ ((exists d run, d ∈ dict_reader (file_rows damaged_elsewhere) /\
                    d !! "RUN" = Some (Some run) /\ py_int run = None) ->
     next_run_number damaged_elsewhere 3 = 1).
Proof.
  intros H.
  assert (Hrun : next_run_number damaged_elsewhere 3 = 1).
  { apply H. exists (dict_row header ["4"; "12ms"; "x"; "0"]), "x".
    split; [left|split; vm_compute; reflexivity]. }
  vm_compute in Hrun. discriminate Hrun.
Qed.

(** C10, amended. When the output file exists and reading it or scanning
    its rows raises, the whole scan is abandoned and the run number is 1,
    whatever RUN values the other rows of the parameter carry; the
    exported row then has RUN 1.  The scan raises exactly when one row
    raises: a row of a file without PARAM column, or a row of the current
    parameter whose RUN column is missing or is not an integer.  The RUN
    of a row of another parameter is not looked at. *)
Theorem export_scan_error_falls_back_to_one results cu rpu limit output_file rows :
  results <> [] ->
  can_append output_file = true ->
  content output_file = Some rows ->
  (can_read output_file = false \/ scan_raises rows cu ->
     next_run_number output_file cu = 1 /\
     last (file_rows (export_to_csv results cu rpu limit output_file)) =
       Some (data_row cu (avg_time_ms results) 1 (failed_flag results)))
  /\ (forall d, d ∈ dict_reader rows -> row_raises d cu -> scan_raises rows cu)
  /\ (forall fieldnames data row,
      rows = fieldnames :: data -> "PARAM" ∉ fieldnames ->
      row ∈ data -> row <> [] -> scan_raises rows cu)
  /\ (scan_raises rows cu -> exists d, d ∈ dict_reader rows /\ row_raises d cu).
Proof.
  intros Hres Ha Hc.
  assert (Hany : forall d, d ∈ dict_reader rows -> row_raises d cu -> scan_raises rows cu).
  { intros d Hd Hraise. exact (matching_rows_raises _ _ d Hd Hraise). }
  split; [|split; [exact Hany|split]].
  - intros Hfail.
    assert (Hrun : next_run_number output_file cu = 1).
    { destruct Hfail as [Hr|Hs];
        [now apply next_run_number_unread|now apply (next_run_number_scan_raises _ rows)]. }
    split; [exact Hrun|].
    rewrite (export_to_csv_existing _ _ _ _ _ rows Hres Ha Hc), Hrun. apply last_snoc.
  - intros fieldnames data row -> Hmissing Hrow Hblank.
    apply (Hany (dict_row fieldnames row)).
    + unfold dict_reader. apply list_elem_of_In, in_map, List.filter_In.
      split; [now apply list_elem_of_In|].
      now rewrite bool_decide_eq_false_2.
    + left. now apply dict_row_missing_column.
  - intros [e He]. exact (matching_rows_raises_inv _ _ e He).
Qed.

Lemma export_scan_error_falls_back_to_one_witness :
  last (file_rows (export_to_csv [ok_result "user1" (1 # 3)] 3 1 20 damaged_file)) =
    Some ["3"; "333ms"; "1"; "0"].
Proof.
  assert (Hres : [ok_result "user1" (1 # 3)] <> []) by discriminate.
  assert (Ha : can_append damaged_file = true) by reflexivity.
  destruct (export_scan_error_falls_back_to_one [ok_result "user1" (1 # 3)] 3 1 20
              damaged_file _ Hres Ha eq_refl) as (Hone & _).
  apply Hone. right. exists (Exception "invalid literal for int()").
  vm_compute. reflexivity.
Defined.

(** ** The load test *)

Lemma execute_timeline_request_returns w user limit :
  exists r, result (execute_timeline_request w user limit) = Returns r.
Proof.
  unfold execute_timeline_request.
  rewrite (Py_eta (get_timeline (w_client w) user limit)).
  destruct (result (get_timeline (w_client w) user limit)) as [tl|e].
  - rewrite py_bind_returns. simpl. eauto.
  - rewrite py_bind_raises, try_except_raises. simpl. eauto.
Qed.

Lemma run_requests_returns worlds user limit :
  forall results, exists more,
    result (run_requests worlds user limit results) = Returns (results ++ more) /\
    length more = length worlds.
Proof.
  induction worlds as [|w rest IH]; intros results; cbn [run_requests].
  - exists []. now rewrite app_nil_r.
  - destruct (execute_timeline_request_returns w user limit) as [r Hr].
    rewrite (Py_eta (execute_timeline_request w user limit)), Hr, py_bind_returns.
    destruct (IH (results ++ [r])) as (more & Hmore & Hlen).
    exists (r :: more). unfold result at 1. cbn [snd]. rewrite Hmore.
    split; [now rewrite <- app_assoc|simpl; now rewrite Hlen].
Qed.

Lemma task_results_length it rpu limit user :
  length (task_results it rpu limit user) = Z.to_nat rpu.
Proof.
  unfold task_results, run_user_requests.
  destruct (run_requests_returns (map (it_env it user) (py_range rpu)) user limit [])
    as (more & Hmore & Hlen).
  rewrite Hmore. cbn [app]. rewrite Hlen, length_map. unfold py_range. apply length_seq.
Qed.

Lemma flat_map_constant_length {A B} (f : A -> list B) k l :
  (forall a, length (f a) = k) -> length (flat_map f l) = (length l * k)%nat.
Proof.
  intros Hf. induction l as [|a l IH]; [reflexivity|].
  cbn [flat_map]. rewrite length_app, Hf, IH. simpl. lia.
Qed.

Lemma run_single_test_returns cu rpu user_prefix limit it :
  0 < cu -> 0 < rpu -> fair it ->
  exists results,
    run_single_test cu rpu user_prefix limit it = Returns results /\
    length results = (Z.to_nat cu * Z.to_nat rpu)%nat /\
    results <> [].
Proof.
  intros Hcu Hrpu Hfair. unfold run_single_test.
  destruct (Z.leb_spec cu 0) as [?|_]; [lia|].
  eexists. split; [reflexivity|].
  assert (Hlen : length (flat_map (task_results it rpu limit)
                           (it_completed it (user_names user_prefix cu)))
                 = (Z.to_nat cu * Z.to_nat rpu)%nat).
  { rewrite (flat_map_constant_length _ (Z.to_nat rpu))
      by (intros; apply task_results_length).
    rewrite (Permutation_length (Hfair _)). unfold user_names.
    now rewrite length_map, length_seq. }
  split; [exact Hlen|].
  intros Hnil. rewrite Hnil in Hlen. simpl in Hlen. nia.
Qed.

Lemma export_to_csv_appends results cu rpu limit output_file :
  results <> [] ->
  can_append output_file = true ->
  can_append (export_to_csv results cu rpu limit output_file) = true /\
  (exists rows, content (export_to_csv results cu rpu limit output_file) = Some rows) /\
  file_rows (export_to_csv results cu rpu limit output_file) =
    file_rows output_file ++ header_if_missing output_file 1 ++
    [data_row cu (avg_time_ms results) (next_run_number output_file cu)
       (failed_flag results)].
Proof.
  intros Hres Ha. split; [|split].
  - unfold export_to_csv. destruct results; [congruence|]. now rewrite Ha.
  - unfold export_to_csv. destruct results; [congruence|]. rewrite Ha. eauto.
  - unfold header_if_missing. destruct (content output_file) as [rows|] eqn:Hc.
    + rewrite (export_to_csv_existing _ _ _ _ _ rows Hres Ha Hc).
      unfold file_rows. now rewrite Hc.
    + rewrite (export_to_csv_fresh _ _ _ _ _ Hres Ha Hc).
      unfold file_rows, next_run_number. now rewrite Hc.
Qed.

Lemma header_if_missing_existing output_file rows n :
  content output_file = Some rows -> header_if_missing output_file n = [].
Proof. intros Hc. unfold header_if_missing. rewrite Hc. now destruct n. Qed.

Lemma header_if_missing_first output_file n :
  header_if_missing output_file (S n) = header_if_missing output_file 1.
Proof. reflexivity. Qed.

Lemma run_iterations_rows cu rpu user_prefix limit its :
  0 < cu -> 0 < rpu -> Forall fair its ->
  forall output_file, can_append output_file = true ->
  exists output_file' rows,
    run_iterations its cu rpu user_prefix limit output_file = (output_file', Returns tt) /\
    file_rows output_file' =
      file_rows output_file ++ header_if_missing output_file (length its) ++ rows /\
    Forall2 (iteration_row cu rpu user_prefix limit) its rows.
Proof.
  intros Hcu Hrpu Hfair. induction Hfair as [|it rest Hit Hrest IH]; intros output_file Ha.
  - exists output_file, []. cbn [run_iterations]. split; [reflexivity|].
    split; [|constructor]. unfold header_if_missing. simpl. now rewrite app_nil_r.
  - destruct (run_single_test_returns cu rpu user_prefix limit it Hcu Hrpu Hit)
      as (results & Hrun & _ & Hne).
    destruct (export_to_csv_appends results cu rpu limit output_file Hne Ha)
      as (Ha' & [rows' Hc'] & Hrows').
    destruct (IH _ Ha') as (final & rows & Hfinal & Hfile & Hall).
    exists final, (data_row cu (avg_time_ms results) (next_run_number output_file cu)
                     (failed_flag results) :: rows).
    cbn [run_iterations]. rewrite Hrun. split; [exact Hfinal|]. split.
    + rewrite Hfile, Hrows', (header_if_missing_existing _ rows' _ Hc').
      cbn [length]. rewrite (header_if_missing_first output_file (length rest)).
      cbn [app]. now rewrite <- !app_assoc.
    + constructor; [|exact Hall]. exists results, (next_run_number output_file cu).
      auto.
Qed.

(** C7. [main] lets the load test run only with [concurrent_users] and
    [requests_per_user] above 0, and then runs three iterations.  Every
    iteration of a load test so started has results to export and,
    unless the file cannot be written, leaves exactly one data row in
    the output file, after the header if the file was missing; this
    holds whatever the requests return, so also when all of them fail. *)
Theorem load_test_one_row_per_iteration (env : nat -> Iteration) (args : Args)
    (output_file : path_state) :
  can_append output_file = true ->
  (forall i, fair (env i)) ->
  let cu := arg_concurrent_users args in
  let rpu := arg_requests_per_user args in
  let user_prefix := arg_user_prefix args in
  let limit := arg_limit args in
  (cu <= 0 \/ rpu <= 0 -> main env args output_file = (output_file, Returns tt))
  /\ (0 < cu -> 0 < rpu ->
      main env args output_file =
        run_load_test env cu rpu user_prefix limit output_file 3)
  /\ (0 < cu -> 0 < rpu ->
      forall iterations, exists output_file' rows,
        run_load_test env cu rpu user_prefix limit output_file iterations
          = (output_file', Returns tt) /\
        file_rows output_file' =
          file_rows output_file ++
          header_if_missing output_file (Z.to_nat iterations) ++ rows /\
        Forall2 (iteration_row cu rpu user_prefix limit)
          (map env (seq 1 (Z.to_nat iterations))) rows).
Proof.
  intros Ha Hfair cu rpu user_prefix limit. split; [|split].
  - intros Hinvalid. unfold main. fold cu rpu.
    destruct (Z.leb_spec cu 0) as [_|?]; [reflexivity|].
    destruct (Z.leb_spec rpu 0) as [_|?]; [reflexivity|lia].
  - intros Hcu Hrpu. unfold main. fold cu rpu.
    destruct (Z.leb_spec cu 0) as [?|_]; [lia|].
    destruct (Z.leb_spec rpu 0) as [?|_]; [lia|]. reflexivity.
  - intros Hcu Hrpu iterations. unfold run_load_test.
    destruct (run_iterations_rows cu rpu user_prefix limit
                (map env (seq 1 (Z.to_nat iterations))) Hcu Hrpu)
      with (output_file := output_file) as (final & rows & Hfinal & Hfile & Hall).
    + apply Forall_forall. intros it Hin. apply list_elem_of_In, in_map_iff in Hin.
      destruct Hin as (i & <- & _). apply Hfair.
    + exact Ha.
    + exists final, rows. rewrite length_map, length_seq in Hfile. auto.
Qed.

Lemma failing_iteration_fair : fair failing_iteration.
Proof. intros names. symmetry. apply Permutation_rev. Qed.

Lemma load_test_one_row_per_iteration_witness :
  exists output_file' rows,
    main (fun _ => failing_iteration) sample_args fresh_path = (output_file', Returns tt) /\
    file_rows output_file' = header :: rows /\
    length rows = 3%nat.
Proof.
  assert (Hcu : 0 < arg_concurrent_users sample_args) by reflexivity.
  assert (Hrpu : 0 < arg_requests_per_user sample_args) by reflexivity.
  assert (Ha : can_append fresh_path = true) by reflexivity.
  destruct (load_test_one_row_per_iteration (fun _ => failing_iteration) sample_args
              fresh_path Ha (fun _ => failing_iteration_fair))
    as (_ & Hmain & Hrows).
  destruct (Hrows Hcu Hrpu 3) as (final & rows & Hrun & Hfile & Hall).
  exists final, rows. rewrite (Hmain Hcu Hrpu). split; [exact Hrun|].
  split; [exact Hfile|].
  apply Forall2_length in Hall. now rewrite <- Hall.
Defined.

(** ** The deletion loop *)

Lemma delete_loop_clause batch_size store passes
    (fetched : {l : list nat | fetch_keys batch_size store = l}) :
  delete_loop_unfold_clause_1 batch_size store fetched passes =
    match proj1_sig fetched with
    | [] => (passes, store)
    | k :: ks =>
        delete_loop batch_size (delete_keys (k :: ks) store) (passes ++ [length (k :: ks)])
    end.
Proof. destruct fetched as [[|k ks] e]; reflexivity. Qed.

(** One turn of the [while True] loop. *)
Lemma delete_loop_step batch_size store passes :
  delete_loop batch_size store passes =
    match fetch_keys batch_size store with
    | [] => (passes, store)
    | k :: ks =>
        delete_loop batch_size (delete_keys (k :: ks) store) (passes ++ [length (k :: ks)])
    end.
Proof. rewrite delete_loop_equation_1. apply delete_loop_clause. Qed.

Lemma fetch_keys_length batch_size store :
  length (fetch_keys batch_size store) = Nat.min batch_size (size store).
Proof. unfold fetch_keys. now rewrite length_take. Qed.

Lemma delete_keys_size batch_size store :
  size (delete_keys (fetch_keys batch_size store) store) =
    (size store - Nat.min batch_size (size store))%nat.
Proof.
  unfold delete_keys. rewrite size_difference.
  - rewrite size_list_to_set, fetch_keys_length; [reflexivity|].
    unfold fetch_keys. apply (sublist_NoDup _ (elements store)); [apply NoDup_elements|apply sublist_take].
  - intros k Hk. apply elem_of_list_to_set in Hk. apply elem_of_elements.
    unfold fetch_keys in Hk. now apply (subseteq_take batch_size).
Qed.

Lemma delete_loop_batches batch_size :
  (0 < batch_size)%nat ->
  forall fuel store passes, (size store <= fuel)%nat ->
  delete_loop batch_size store passes =
    (passes ++ batches fuel (size store) batch_size, ∅).
Proof.
  intros Hb. induction fuel as [|fuel IH]; intros store passes Hsize.
  - assert (Hempty : store = ∅) by (apply leibniz_equiv, size_empty_iff; lia).
    subst store. rewrite delete_loop_step. unfold fetch_keys.
    rewrite elements_empty, take_nil. simpl. now rewrite app_nil_r.
  - rewrite delete_loop_step.
    pose proof (fetch_keys_length batch_size store) as Hlen.
    pose proof (delete_keys_size batch_size store) as Hdel.
    destruct (fetch_keys batch_size store) as [|k ks] eqn:Hfetch.
    + simpl in Hlen. assert (Hz : size store = 0%nat) by lia.
      assert (Hempty : store = ∅) by (apply leibniz_equiv, size_empty_iff; exact Hz).
      subst store. cbn [batches]. rewrite size_empty. simpl. now rewrite app_nil_r.
    + rewrite IH by lia. rewrite Hdel. cbn [batches].
      assert (Hnz : (size store =? 0)%nat = false) by (apply Nat.eqb_neq; simpl in Hlen; lia).
      rewrite Hnz, Hlen, <- app_assoc. reflexivity.
Qed.

(** C9. [delete_all_posts] with batch size 500 fetches a batch of keys
    and deletes it, again and again, and stops exactly at the first fetch
    that returns nothing.  It is total: for every finite store it ends,
    and with no Post entity left.  The delete passes take
    [min 500 remaining] entities each; on 1200 entities they are three,
    of sizes 500, 500 and 200, and the fetch that follows returns
    nothing. *)
Theorem delete_all_posts_empties_store (store : gset nat) :
  snd (delete_all_posts 500 store) = ∅
  /\ fetch_keys 500 (snd (delete_all_posts 500 store)) = []
  /\ fst (delete_all_posts 500 store) = batches (size store) (size store) 500
  /\ (size store = 1200%nat ->
      fst (delete_all_posts 500 store) = [500; 500; 200]%nat)
  /\ (forall remaining passes,
      fetch_keys 500 remaining = [] ->
      delete_loop 500 remaining passes = (passes, remaining))
  /\ (forall remaining passes k ks,
      fetch_keys 500 remaining = k :: ks ->
      delete_loop 500 remaining passes =
        delete_loop 500 (delete_keys (k :: ks) remaining)
          (passes ++ [length (k :: ks)])).
Proof.
  assert (Hloop : delete_all_posts 500 store =
                  (batches (size store) (size store) 500, ∅)).
  { unfold delete_all_posts.
    rewrite (delete_loop_batches 500 ltac:(lia) (size store) store []) by lia.
    reflexivity. }
  rewrite Hloop. cbn [fst snd].
  split; [reflexivity|]. split; [reflexivity|]. split; [reflexivity|].
  split; [intros ->; reflexivity|].
  split; intros remaining passes.
  - intros Hfetch. now rewrite delete_loop_step, Hfetch.
  - intros k ks Hfetch. now rewrite delete_loop_step, Hfetch.
Qed.

Lemma delete_all_posts_empties_store_witness :
  fst (delete_all_posts 500 store_1200) = [500; 500; 200]%nat /\
  snd (delete_all_posts 500 store_1200) = ∅.
Proof.
  assert (Hsize : size store_1200 = 1200%nat) by (vm_compute; reflexivity).
  destruct (delete_all_posts_empties_store store_1200) as (Hempty & _ & _ & Hpasses & _).
  split; [exact (Hpasses Hsize)|exact Hempty].
Defined.

(** * Further properties of the code *)

(** ** get_timeline outside the three strategies *)

(** X1. The entity lookup is outside every [try]: when [client.get]
    raises, [get_timeline] raises the same error after that single call,
    no query is made, and [execute_timeline_request] records the failure
    with the text of that error. *)
Theorem get_timeline_lookup_error_propagates (w : World) (user : string) (limit : Z)
    (e : exn) :
  user <> "" ->
  client_get (w_client w) user = Raises e ->
  get_timeline (w_client w) user limit = ([CallGet user], Raises e)
  /\ execute_timeline_request w user limit =
       ([CallGet user],
        Returns {| r_user := user; r_duration := (t_stop w - t_start w)%Q;
                   r_success := false; r_posts_count := 0;
                   r_error := Some (str_exn e) |}).
Proof.
  intros Hu Hget.
  assert (Hgt : get_timeline (w_client w) user limit = ([CallGet user], Raises e)).
  { unfold get_timeline. destruct (String.eqb_spec user "") as [->|_]; [congruence|].
    unfold perform at 1. now rewrite Hget, py_bind_raises. }
  split; [exact Hgt|].
  unfold execute_timeline_request. rewrite Hgt, py_bind_raises, try_except_raises.
  reflexivity.
Qed.

Lemma get_timeline_lookup_error_propagates_witness :
  result (execute_timeline_request
            {| w_client := unreachable_client; t_start := 0; t_stop := 1 # 2 |}
            "carol" 20) =
    Returns {| r_user := "carol"; r_duration := ((1 # 2) - 0)%Q; r_success := false;
               r_posts_count := 0; r_error := Some "datastore unreachable" |}.
Proof.
  assert (Hu : "carol" <> "") by discriminate.
  destruct (get_timeline_lookup_error_propagates
              {| w_client := unreachable_client; t_start := 0; t_stop := 1 # 2 |}
              "carol" 20 (Exception "datastore unreachable") Hu eq_refl) as [_ H].
  now rewrite H.
Defined.

(** X2. The empty user is answered without talking to the Datastore:
    [get_timeline] returns the empty timeline with no client call, and
    [execute_timeline_request] records a success with 0 posts, on any
    client, also one on which every call would raise. *)
Theorem empty_user_makes_no_call (w : World) (limit : Z) :
  get_timeline (w_client w) "" limit = ([], Returns [])
  /\ execute_timeline_request w "" limit =
       ([], Returns {| r_user := ""; r_duration := (t_stop w - t_start w)%Q;
                       r_success := true; r_posts_count := 0; r_error := None |}).
Proof. split; reflexivity. Qed.

(** ** The fan-out strategy *)

Lemma get_timeline_fan_out_result client user limit user_entity e2
    (fetched : string -> list Post) :
  user <> "" ->
  client_get client user = Returns user_entity ->
  let authors := follow_set user_entity user in
  gql_fails client authors limit ->
  client_query_in client authors limit = Raises e2 ->
  (forall a, a ∈ authors -> client_query_eq client a limit = Returns (fetched a)) ->
  result (get_timeline client user limit) =
    Returns (slice_to limit (sorted_created_desc (flat_map fetched authors))).
Proof.
  intros Hu Hget authors Hfail Hq Heq.
  rewrite (get_timeline_fan_out_case client user limit user_entity e2 Hu Hget Hfail Hq).
  fold authors. unfold strategy_fan_out.
  rewrite (fan_out_returns client limit fetched authors [] Heq), py_bind_returns.
  reflexivity.
Qed.

(** X3. In the fan-out, the per-author queries are made in the order of
    the follow-set and stop at the first one that raises: its error is
    the error of [get_timeline], the authors after it are not queried,
    and the posts fetched before it are dropped. *)
Theorem fan_out_stops_at_first_error client user limit user_entity e2 e
    (fetched : string -> list Post) (before after : list string) (a : string) :
  user <> "" ->
  client_get client user = Returns user_entity ->
  follow_set user_entity user = before ++ a :: after ->
  gql_fails client (follow_set user_entity user) limit ->
  client_query_in client (follow_set user_entity user) limit = Raises e2 ->
  (forall b, b ∈ before -> client_query_eq client b limit = Returns (fetched b)) ->
  client_query_eq client a limit = Raises e ->
  get_timeline client user limit =
    (CallGet user :: gql_calls client (follow_set user_entity user) limit ++
       CallQueryIn (follow_set user_entity user) limit ::
       map (fun b => CallQueryEq b limit) (before ++ [a]),
     Raises e).
Proof.
  intros Hu Hget Hset Hfail Hq Hbefore Ha.
  rewrite (get_timeline_fan_out_case client user limit user_entity e2 Hu Hget Hfail Hq).
  assert (Hfan : fan_out client (follow_set user_entity user) limit [] =
                 (map (fun b => CallQueryEq b limit) (before ++ [a]), Raises e)).
  { rewrite Hset. exact (fan_out_raises client limit fetched before a e after []
                           Hbefore Ha). }
  unfold strategy_fan_out. now rewrite Hfan, py_bind_raises.
Qed.

Lemma fan_out_stops_at_first_error_witness :
  get_timeline alice_fails_client "carol" 20 =
    ([CallGet "carol"; CallQueryIn ["carol"; "alice"; "bob"] 20;
      CallQueryEq "carol" 20; CallQueryEq "alice" 20],
     Raises (Exception "alice unavailable")).
Proof.
  assert (Hu : "carol" <> "") by discriminate.
  assert (Hset : follow_set (Some carol_entity) "carol" = ["carol"] ++ "alice" :: ["bob"])
    by (vm_compute; reflexivity).
  rewrite (fan_out_stops_at_first_error alice_fails_client "carol" 20
             (Some carol_entity) (Exception "IN filter not supported")
             (Exception "alice unavailable")
             (fun b => [sample_post 1 b 10]) ["carol"] ["bob"] "alice"
             Hu eq_refl Hset I eq_refl).
  - rewrite Hset. reflexivity.
  - intros b Hb. apply list_elem_of_singleton in Hb. now subst b.
  - reflexivity.
Defined.

Lemma StronglySorted_app_elem {A} (R : A -> A -> Prop) (l1 l2 : list A) :
  StronglySorted R (l1 ++ l2) ->
  forall x y, x ∈ l1 -> y ∈ l2 -> R x y.
Proof.
  induction l1 as [|z l1 IH]; intros Hs x y Hx Hy.
  - now apply elem_of_nil in Hx.
  - simpl in Hs. apply StronglySorted_inv in Hs as [Hs Hz].
    apply elem_of_cons in Hx as [->|Hx]; [|now apply IH].
    rewrite Forall_forall in Hz. apply Hz. apply elem_of_app. now right.
Qed.

Lemma sorted_created_desc_length posts :
  length (sorted_created_desc posts) = length posts.
Proof. symmetry. apply Permutation_length, sorted_created_desc_perm. Qed.

(** X4. A negative [limit] is not rejected: Python's slice then drops
    the last [-limit] posts of the merged list instead of keeping a
    prefix of [limit] posts, so the fan-out returns all the fetched posts
    but the [-limit] oldest. *)
Theorem fan_out_negative_limit client user limit user_entity e2
    (fetched : string -> list Post) :
  user <> "" ->
  client_get client user = Returns user_entity ->
  limit < 0 ->
  let authors := follow_set user_entity user in
  gql_fails client authors limit ->
  client_query_in client authors limit = Raises e2 ->
  (forall a, a ∈ authors -> client_query_eq client a limit = Returns (fetched a)) ->
  let merged := sorted_created_desc (flat_map fetched authors) in
  let kept := (length merged - Z.to_nat (- limit))%nat in
  result (get_timeline client user limit) = Returns (take kept merged)
  /\ length (take kept merged) =
       (length (flat_map fetched authors) - Z.to_nat (- limit))%nat.
Proof.
  intros Hu Hget Hlimit authors Hfail Hq Heq merged kept. split.
  - rewrite (get_timeline_fan_out_result client user limit user_entity e2 fetched
               Hu Hget Hfail Hq Heq).
    unfold slice_to. destruct (Z.leb_spec 0 limit); [lia|reflexivity].
  - rewrite length_take. unfold kept, merged.
    rewrite sorted_created_desc_length. lia.
Qed.

Lemma fan_out_negative_limit_witness :
  result (get_timeline fan_out_client "carol" (-1)) =
    Returns [sample_post 2 "carol" 35; sample_post 2 "alice" 35; sample_post 2 "bob" 33;
             sample_post 1 "carol" 10; sample_post 1 "alice" 10].
Proof.
  assert (Hu : "carol" <> "") by discriminate.
  assert (Hlimit : -1 < 0) by lia.
  destruct (fan_out_negative_limit fan_out_client "carol" (-1) (Some carol_entity)
              (Exception "IN filter not supported")
              (fun a => [sample_post 1 a 10;
                         sample_post 2 a (30 + Z.of_nat (String.length a))])
              Hu eq_refl Hlimit I eq_refl) as [Hres _].
  - intros a _. reflexivity.
  - rewrite Hres. vm_compute. reflexivity.
Defined.

(** X5. The timeline of the fan-out holds the most recent posts: the
    fetched posts split into the timeline and the posts left out, every
    post of the timeline was fetched from an author of the follow-set,
    and no post left out is more recent than a post of the timeline. *)
Theorem fan_out_keeps_most_recent client user limit user_entity e2
    (fetched : string -> list Post) :
  user <> "" ->
  client_get client user = Returns user_entity ->
  let authors := follow_set user_entity user in
  gql_fails client authors limit ->
  client_query_in client authors limit = Raises e2 ->
  (forall a, a ∈ authors -> client_query_eq client a limit = Returns (fetched a)) ->
  exists timeline left_out,
    result (get_timeline client user limit) = Returns timeline
    /\ Permutation (flat_map fetched authors) (timeline ++ left_out)
    /\ (forall p, p ∈ timeline -> exists a, a ∈ authors /\ p ∈ fetched a)
    /\ (forall p q, p ∈ timeline -> q ∈ left_out -> created q <= created p).
Proof.
  intros Hu Hget authors Hfail Hq Heq.
  set (merged := sorted_created_desc (flat_map fetched authors)).
  destruct (slice_to_is_take limit merged) as [n Hn].
  exists (take n merged), (drop n merged).
  assert (Hperm : Permutation (flat_map fetched authors)
                    (take n merged ++ drop n merged)).
  { rewrite take_drop. apply sorted_created_desc_perm. }
  split; [|split; [exact Hperm|split]].
  - rewrite (get_timeline_fan_out_result client user limit user_entity e2 fetched
               Hu Hget Hfail Hq Heq).
    fold authors merged. now rewrite Hn.
  - intros p Hp.
    assert (Hin : In p (flat_map fetched authors)).
    { apply list_elem_of_In. rewrite Hperm. apply elem_of_app. now left. }
    apply in_flat_map in Hin as (a & Ha & Hpa).
    exists a. split; now apply list_elem_of_In.
  - intros p q Hp Hq'.
    apply (StronglySorted_app_elem desc (take n merged) (drop n merged));
      [|assumption..].
    rewrite take_drop. apply sorted_created_desc_sorted.
Qed.

Lemma fan_out_keeps_most_recent_witness :
  exists timeline left_out,
    result (get_timeline fan_out_client "carol" 3) = Returns timeline
    /\ Permutation
         (flat_map (fun a => [sample_post 1 a 10;
                              sample_post 2 a (30 + Z.of_nat (String.length a))])
            (follow_set (Some carol_entity) "carol"))
         (timeline ++ left_out)
    /\ (forall p q, p ∈ timeline -> q ∈ left_out -> created q <= created p).
Proof.
  assert (Hu : "carol" <> "") by discriminate.
  destruct (fan_out_keeps_most_recent fan_out_client "carol" 3 (Some carol_entity)
              (Exception "IN filter not supported")
              (fun a => [sample_post 1 a 10;
                         sample_post 2 a (30 + Z.of_nat (String.length a))])
              Hu eq_refl I eq_refl) as (timeline & left_out & H1 & H2 & _ & H4).
  - intros a _. reflexivity.
  - exists timeline, left_out. auto.
Defined.

(** X6. Nothing is lost when the followed authors have at most [limit]
    posts together: the fan-out timeline is then a rearrangement of all
    the fetched posts. *)
Theorem fan_out_complete_under_limit client user limit user_entity e2
    (fetched : string -> list Post) :
  user <> "" ->
  client_get client user = Returns user_entity ->
  let authors := follow_set user_entity user in
  gql_fails client authors limit ->
  client_query_in client authors limit = Raises e2 ->
  (forall a, a ∈ authors -> client_query_eq client a limit = Returns (fetched a)) ->
  Z.of_nat (length (flat_map fetched authors)) <= limit ->
  exists timeline,
    result (get_timeline client user limit) = Returns timeline
    /\ Permutation (flat_map fetched authors) timeline
    /\ StronglySorted desc timeline.
Proof.
  intros Hu Hget authors Hfail Hq Heq Hlen.
  exists (sorted_created_desc (flat_map fetched authors)).
  split; [|split; [apply sorted_created_desc_perm|apply sorted_created_desc_sorted]].
  rewrite (get_timeline_fan_out_result client user limit user_entity e2 fetched
             Hu Hget Hfail Hq Heq).
  fold authors. rewrite slice_to_nonneg by lia.
  rewrite take_ge; [reflexivity|]. rewrite sorted_created_desc_length. lia.
Qed.

Lemma fan_out_complete_under_limit_witness :
  exists timeline,
    result (get_timeline fan_out_client "carol" 20) = Returns timeline
    /\ length timeline = 6%nat.
Proof.
  assert (Hu : "carol" <> "") by discriminate.
  destruct (fan_out_complete_under_limit fan_out_client "carol" 20 (Some carol_entity)
              (Exception "IN filter not supported")
              (fun a => [sample_post 1 a 10;
                         sample_post 2 a (30 + Z.of_nat (String.length a))])
              Hu eq_refl I eq_refl) as (timeline & Hres & Hperm & _).
  - intros a _. reflexivity.
  - vm_compute. discriminate.
  - exists timeline. split; [exact Hres|].
    apply Permutation_length in Hperm. rewrite <- Hperm. vm_compute. reflexivity.
Defined.

(** ** The cost of a timeline and the follow-set *)

Lemma fan_out_calls_length client limit authors :
  forall posts, (length (calls (fan_out client authors limit posts)) <= length authors)%nat.
Proof.
  induction authors as [|a rest IH]; intros posts; cbn [fan_out]; [simpl; lia|].
  unfold perform. destruct (client_query_eq client a limit) as [ps|e].
  - rewrite py_bind_returns. simpl. specialize (IH (posts ++ ps)). lia.
  - simpl. lia.
Qed.

Lemma follow_set_length user_entity user :
  (length (follow_set user_entity user) <=
   S (length (match user_entity with
              | Some e => default [] (follows e)
              | None => []
              end)))%nat.
Proof.
  set (l := match user_entity with Some e => default [] (follows e) | None => [] end).
  change (S (length l)) with (length (user :: l)).
  apply submseteq_length, NoDup_submseteq.
  - apply NoDup_elements.
  - intros x Hx. apply follow_set_elem in Hx. fold l in Hx.
    destruct Hx as [->|Hx]; [left|now right].
Qed.

(** X7. One timeline costs at most one entity lookup, one query of each
    of the first two strategies and one query per member of the
    follow-set, which has at most one member more than the [follows]
    list; when the lookup raises, nothing more is asked, and for the
    empty user nothing is asked at all. *)
Theorem get_timeline_call_bound client user limit :
  (user = "" -> calls (get_timeline client user limit) = []) /\
  match client_get client user with
  | Returns user_entity =>
      (length (calls (get_timeline client user limit)) <=
       3 + length (follow_set user_entity user))%nat
      /\ (length (follow_set user_entity user) <=
          S (length (match user_entity with
                     | Some e => default [] (follows e)
                     | None => []
                     end)))%nat
  | Raises _ => (length (calls (get_timeline client user limit)) <= 1)%nat
  end.
Proof.
  split; [intros ->; reflexivity|].
  destruct (String.eqb_spec user "") as [->|Hu].
  { unfold get_timeline. cbn [String.eqb py_ret calls fst length].
    destruct (client_get client ""); [split; [lia|apply follow_set_length]|lia]. }
  destruct (client_get client user) as [user_entity|e] eqn:Hget.
  - split; [|apply follow_set_length].
    rewrite (get_timeline_unfold client user limit user_entity Hu Hget).
    set (authors := follow_set user_entity user).
    pose proof (fan_out_calls_length client limit authors []) as Hfan.
    rewrite <- strategy_fan_out_calls in Hfan.
    assert (Htail : (length (calls (spec_try_in_order [strategy_in client authors limit]
                                      (strategy_fan_out client authors limit)))
                     <= 1 + length authors)%nat).
    { unfold strategy_in, perform.
      destruct (client_query_in client authors limit) as [tl|e2].
      - rewrite (@spec_try_returns (list Post)). simpl. lia.
      - rewrite (@spec_try_raises (list Post)), spec_try_final. simpl. lia. }
    simpl calls. cbn [length].
    unfold strategy_gql. destruct (client_gql client) as [gql|]; [|cbn [app]; lia].
    cbn [app]. unfold perform at 1. destruct (gql authors limit) as [tl|e].
    + rewrite (@spec_try_returns (list Post)). simpl. lia.
    + rewrite (@spec_try_raises (list Post)). unfold calls in *. cbn [fst] in *.
      rewrite length_app. cbn [length]. lia.
  - unfold get_timeline. destruct (String.eqb_spec user "") as [->|_]; [congruence|].
    unfold perform at 1. rewrite Hget, py_bind_raises. simpl. lia.
Qed.

(** X8. Only the set of followed users matters: two [follows] lists with
    the same members, in any order and with any repetitions, give the
    same follow-set up to its order. *)
Theorem follow_set_ignores_order_and_repeats (l1 l2 : list string) (user : string) :
  (forall x, x ∈ l1 <-> x ∈ l2) ->
  Permutation (follow_set (Some {| follows := Some l1 |}) user)
              (follow_set (Some {| follows := Some l2 |}) user).
Proof.
  intros Hsame. apply NoDup_Permutation; try apply NoDup_elements.
  intros x. rewrite !follow_set_elem. simpl. now rewrite Hsame.
Qed.

Lemma follow_set_ignores_order_and_repeats_witness :
  Permutation (follow_set (Some {| follows := Some ["bob"; "alice"; "bob"] |}) "carol")
              (follow_set (Some {| follows := Some ["alice"; "bob"] |}) "carol").
Proof.
  apply follow_set_ignores_order_and_repeats.
  intros x. rewrite !elem_of_cons, !elem_of_nil. tauto.
Defined.

(** ** The requests of one user *)

Lemma execute_timeline_request_record w user limit r :
  result (execute_timeline_request w user limit) = Returns r ->
  r_user r = user /\ coherent r.
Proof.
  unfold execute_timeline_request.
  rewrite (Py_eta (get_timeline (w_client w) user limit)).
  destruct (result (get_timeline (w_client w) user limit)) as [tl|e].
  - rewrite py_bind_returns. simpl. intros [= <-]. unfold coherent. simpl.
    split; [reflexivity|]. split; [tauto|discriminate].
  - rewrite py_bind_raises, try_except_raises. simpl. intros [= <-].
    unfold coherent. simpl. split; [reflexivity|].
    split; [split; discriminate|reflexivity].
Qed.

Lemma run_requests_each worlds user limit :
  forall results, exists more,
    run_requests worlds user limit results =
      (flat_map (fun w => calls (execute_timeline_request w user limit)) worlds,
       Returns (results ++ more)) /\
    Forall2 (fun w r => result (execute_timeline_request w user limit) = Returns r)
            worlds more.
Proof.
  induction worlds as [|w rest IH]; intros results; cbn [run_requests flat_map].
  - exists []. unfold py_ret. rewrite app_nil_r. split; [reflexivity|constructor].
  - destruct (execute_timeline_request_returns w user limit) as [r Hr].
    destruct (IH (results ++ [r])) as (more & Hmore & Hall).
    exists (r :: more). split; [|now constructor].
    destruct (execute_timeline_request w user limit) as [log out].
    cbn [result snd] in Hr. subst out.
    rewrite py_bind_returns, Hmore. cbn [calls fst result snd].
    now rewrite <- app_assoc.
Qed.

(** X9. [run_user_requests] never raises and returns one record per
    request, in request order: none for [num_requests <= 0], otherwise
    [num_requests] records, the [k]-th being the record of the [k]-th
    call of [execute_timeline_request], all of them for [user].  The
    requests are made one after the other: the client calls are those of
    the first request, then those of the second, and so on. *)
Theorem run_user_requests_one_record_each (env : nat -> World) (user : string)
    (num_requests limit : Z) :
  exists results,
    run_user_requests env user num_requests limit =
      (flat_map (fun k => calls (execute_timeline_request (env k) user limit))
         (py_range num_requests),
       Returns results)
    /\ length results = Z.to_nat num_requests
    /\ (forall k r, results !! k = Some r ->
          result (execute_timeline_request (env k) user limit) = Returns r)
    /\ Forall (fun r => r_user r = user /\ coherent r) results.
Proof.
  unfold run_user_requests.
  destruct (run_requests_each (map env (py_range num_requests)) user limit [])
    as (results & Hrun & Hall).
  exists results. cbn [app] in Hrun. rewrite Hrun. split; [|split; [|split]].
  - f_equal. rewrite flat_map_concat_map, map_map, <- flat_map_concat_map. reflexivity.
  - apply Forall2_length in Hall. rewrite <- Hall, length_map. unfold py_range.
    apply length_seq.
  - intros k r Hk.
    destruct (Forall2_lookup_r _ _ _ _ _ Hall Hk) as (w & Hw & Hres).
    rewrite list_lookup_fmap in Hw. unfold py_range in Hw.
    destruct (seq 0 (Z.to_nat num_requests) !! k) as [k'|] eqn:Hseq; [|discriminate].
    apply lookup_seq in Hseq as [-> _]. simpl in Hw. now injection Hw as <-.
  - clear Hrun. induction Hall as [|w r ws rs Hr _ IH]; constructor; [|exact IH].
    now apply (execute_timeline_request_record w user limit).
Qed.

(** ** One test *)

Lemma string_app_inj_l (prefix a b : string) :
  (prefix ++ a = prefix ++ b)%string -> a = b.
Proof. induction prefix as [|c prefix IH]; simpl; [auto|]. intros [= H]. auto. Qed.

Lemma user_names_NoDup user_prefix concurrent_users :
  NoDup (user_names user_prefix concurrent_users).
Proof.
  unfold user_names. apply NoDup_fmap_2; [|apply NoDup_seq].
  intros i j H. apply string_app_inj_l, py_str_inj in H. lia.
Qed.

(** X10. The simulated users are distinct: [run_single_test] builds
    [concurrent_users] names (none when the number is not positive), the
    [i]-th being the prefix followed by [str(i + 1)], and no two of them
    are equal, whatever the prefix. *)
Theorem user_names_distinct (user_prefix : string) (concurrent_users : Z) :
  NoDup (user_names user_prefix concurrent_users)
  /\ length (user_names user_prefix concurrent_users) = Z.to_nat concurrent_users
  /\ (forall i name, user_names user_prefix concurrent_users !! i = Some name ->
        name = (user_prefix ++ py_str (Z.of_nat (S i)))%string)
  /\ (concurrent_users <= 0 -> user_names user_prefix concurrent_users = []).
Proof.
  split; [apply user_names_NoDup|]. unfold user_names. split; [|split].
  - now rewrite length_map, length_seq.
  - intros i name H. rewrite list_lookup_fmap in H.
    destruct (seq 1 (Z.to_nat concurrent_users) !! i) as [j|] eqn:Hseq; [|discriminate].
    apply lookup_seq in Hseq as [-> _]. simpl in H. now injection H as <-.
  - intros Hle. replace (Z.to_nat concurrent_users) with 0%nat by lia. reflexivity.
Qed.

Lemma task_results_records it rpu limit user :
  length (task_results it rpu limit user) = Z.to_nat rpu /\
  Forall (fun r => r_user r = user /\ coherent r) (task_results it rpu limit user).
Proof.
  split; [apply task_results_length|].
  unfold task_results, run_user_requests.
  destruct (run_requests_each (map (it_env it user) (py_range rpu)) user limit [])
    as (results & Hrun & Hall).
  rewrite Hrun. cbn [result snd app]. clear Hrun.
  induction Hall as [|w r ws rs Hr _ IH]; constructor; [|exact IH].
  now apply (execute_timeline_request_record w user limit).
Qed.

Lemma filter_perm {A} (f : A -> bool) (l l' : list A) :
  Permutation l l' -> Permutation (List.filter f l) (List.filter f l').
Proof.
  induction 1 as [|x l l' _ IH|x y l|l l' l'' _ IH1 _ IH2]; simpl.
  - reflexivity.
  - destruct (f x); [now constructor|exact IH].
  - destruct (f x), (f y); try reflexivity. apply perm_swap.
  - now rewrite IH1.
Qed.

Lemma flat_map_perm {A B} (f : A -> list B) (l l' : list A) :
  Permutation l l' -> Permutation (flat_map f l) (flat_map f l').
Proof.
  induction 1 as [|x l l' _ IH|x y l|l l' l'' _ IH1 _ IH2]; simpl.
  - reflexivity.
  - now apply Permutation_app_head.
  - rewrite !app_assoc. apply Permutation_app_tail, Permutation_app_comm.
  - now rewrite IH1.
Qed.

(** The records of one user among the records of the tasks of [names]. *)
Lemma records_of_user (f : string -> list RequestResult) (k : nat) (name : string)
    (names : list string) :
  (forall u, length (f u) = k /\ Forall (fun r => r_user r = u) (f u)) ->
  NoDup names -> name ∈ names ->
  length (List.filter (fun r => bool_decide (r_user r = name)) (flat_map f names)) = k.
Proof.
  intros Hf. 
  assert (Hown : forall u, u = name ->
    List.filter (fun r => bool_decide (r_user r = name)) (f u) = f u).
  { intros u ->. destruct (Hf name) as [_ Hall].
    induction Hall as [|r rs Hr _ IH]; [reflexivity|].
    simpl. rewrite bool_decide_eq_true_2 by exact Hr. now rewrite IH. }
  assert (Hother : forall u, u <> name ->
    List.filter (fun r => bool_decide (r_user r = name)) (f u) = []).
  { intros u Hne. destruct (Hf u) as [_ Hall].
    induction Hall as [|r rs Hr _ IH]; [reflexivity|].
    simpl. rewrite bool_decide_eq_false_2 by congruence. exact IH. }
  assert (Hnone : forall l, name ∉ l ->
    List.filter (fun r => bool_decide (r_user r = name)) (flat_map f l) = []).
  { induction l as [|u l IH]; intros Hl; [reflexivity|].
    cbn [flat_map]. rewrite List.filter_app, Hother, IH; [reflexivity| |].
    - intros H. apply Hl. now right.
    - intros ->. apply Hl. left. }
  induction names as [|u names IH]; intros Hnd Hin.
  - now apply elem_of_nil in Hin.
  - apply NoDup_cons in Hnd as [Hu Hnd]. cbn [flat_map].
    rewrite List.filter_app, length_app.
    apply elem_of_cons in Hin as [->|Hin].
    + rewrite Hown, Hnone by auto. simpl. destruct (Hf u) as [-> _]. lia.
    + assert (u <> name) by (intros ->; contradiction).
      rewrite Hother, IH by auto. reflexivity.
Qed.

(** X11. With [concurrent_users > 0] and every task handed back once,
    [run_single_test] collects [concurrent_users * requests_per_user]
    records: exactly [requests_per_user] (none when that is not
    positive) for each simulated user, each one a success without error
    text or a failure with an error text and 0 posts. *)
Theorem run_single_test_records_per_user cu rpu user_prefix limit it :
  0 < cu -> fair it ->
  exists results,
    run_single_test cu rpu user_prefix limit it = Returns results
    /\ length results = (Z.to_nat cu * Z.to_nat rpu)%nat
    /\ Forall (fun r => r_user r ∈ user_names user_prefix cu /\ coherent r) results
    /\ (forall name, name ∈ user_names user_prefix cu ->
          length (List.filter (fun r => bool_decide (r_user r = name)) results)
          = Z.to_nat rpu).
Proof.
  intros Hcu Hfair. unfold run_single_test.
  destruct (Z.leb_spec cu 0) as [?|_]; [lia|].
  set (names := user_names user_prefix cu).
  eexists. split; [reflexivity|]. split; [|split].
  - rewrite (flat_map_constant_length _ (Z.to_nat rpu))
      by (intros; apply task_results_length).
    rewrite (Permutation_length (Hfair _)). unfold names, user_names.
    now rewrite length_map, length_seq.
  - apply Forall_forall. intros r Hr.
    apply list_elem_of_In, in_flat_map in Hr as (u & Hu & Hr).
    destruct (task_results_records it rpu limit u) as [_ Hall].
    rewrite Forall_forall in Hall. apply list_elem_of_In in Hr.
    destruct (Hall r Hr) as [-> Hc]. split; [|exact Hc].
    apply list_elem_of_In in Hu. now rewrite <- (Hfair names).
  - intros name Hname.
    rewrite (Permutation_length (filter_perm _ _ _ (flat_map_perm _ _ _ (Hfair names)))).
    apply records_of_user; [|apply user_names_NoDup|exact Hname].
    intros u. destruct (task_results_records it rpu limit u) as [Hlen Hall].
    split; [exact Hlen|]. eapply Forall_impl; [exact Hall|]. now intros r [? _].
Qed.

Lemma run_single_test_records_per_user_witness :
  exists results,
    run_single_test 2 2 "user" 20 failing_iteration = Returns results
    /\ length results = 4%nat.
Proof.
  assert (Hcu : 0 < 2) by lia.
  destruct (run_single_test_records_per_user 2 2 "user" 20 failing_iteration
              Hcu failing_iteration_fair) as (results & Hrun & Hlen & _).
  exists results. split; [exact Hrun|exact Hlen].
Defined.

(** ** The order in which tasks complete *)

Lemma task_results_same_requests it1 it2 rpu limit user :
  same_requests it1 it2 ->
  task_results it1 rpu limit user = task_results it2 rpu limit user.
Proof.
  intros Hsame. unfold task_results, run_user_requests.
  now rewrite (map_ext _ _ (Hsame user)).
Qed.

Lemma run_single_test_schedule cu rpu user_prefix limit it1 it2 :
  same_requests it1 it2 -> fair it1 -> fair it2 ->
  (exists e, run_single_test cu rpu user_prefix limit it1 = Raises e /\
             run_single_test cu rpu user_prefix limit it2 = Raises e)
  \/ (exists results1 results2,
        run_single_test cu rpu user_prefix limit it1 = Returns results1 /\
        run_single_test cu rpu user_prefix limit it2 = Returns results2 /\
        Permutation results1 results2).
Proof.
  intros Hsame Hfair1 Hfair2. unfold run_single_test.
  destruct (cu <=? 0); [left; eauto|].
  right. do 2 eexists. split; [reflexivity|]. split; [reflexivity|].
  rewrite (flat_map_ext _ _
             (fun u => task_results_same_requests it1 it2 rpu limit u Hsame)).
  apply flat_map_perm. etransitivity; [apply Hfair1|symmetry; apply Hfair2].
Qed.

(** X12. The records of a test do not depend on the order in which the
    tasks complete: two runs that meet the same requests collect the same
    records, up to their order in the list. *)
Theorem run_single_test_any_completion_order cu rpu user_prefix limit it1 it2
    results1 results2 :
  same_requests it1 it2 -> fair it1 -> fair it2 ->
  run_single_test cu rpu user_prefix limit it1 = Returns results1 ->
  run_single_test cu rpu user_prefix limit it2 = Returns results2 ->
  Permutation results1 results2.
Proof.
  intros Hsame Hfair1 Hfair2 H1 H2.
  destruct (run_single_test_schedule cu rpu user_prefix limit it1 it2
              Hsame Hfair1 Hfair2) as [(e & He & _)|(r1 & r2 & Hr1 & Hr2 & Hperm)].
  - congruence.
  - congruence.
Qed.

Lemma quiet_iteration_fair : fair quiet_iteration.
Proof. intros names. reflexivity. Qed.

Lemma quiet_iteration_reversed_fair : fair quiet_iteration_reversed.
Proof. intros names. symmetry. apply Permutation_rev. Qed.

Lemma run_single_test_any_completion_order_witness :
  exists results1 results2,
    run_single_test 2 1 "user" 20 quiet_iteration = Returns results1 /\
    run_single_test 2 1 "user" 20 quiet_iteration_reversed = Returns results2 /\
    results1 <> results2 /\
    Permutation results1 results2.
Proof.
  do 2 eexists. split; [reflexivity|]. split; [reflexivity|].
  split; [vm_compute; discriminate|].
  apply (run_single_test_any_completion_order 2 1 "user" 20
           quiet_iteration quiet_iteration_reversed).
  - intros user k. reflexivity.
  - exact quiet_iteration_fair.
  - exact quiet_iteration_reversed_fair.
  - reflexivity.
  - reflexivity.
Defined.

(** ** The summary row and the order of the records *)

Lemma Qsum_perm (l l' : list Q) : Permutation l l' -> (Qsum l == Qsum l')%Q.
Proof.
  induction 1 as [|x l l' _ IH|x y l|l l' l'' _ IH1 _ IH2]; simpl.
  - reflexivity.
  - now rewrite IH.
  - ring.
  - now rewrite IH1.
Qed.

Lemma avg_time_ms_perm results results' :
  Permutation results results' -> avg_time_ms results = avg_time_ms results'.
Proof.
  intros Hperm. unfold avg_time_ms, successful.
  pose proof (filter_perm r_success _ _ Hperm) as Hs.
  destruct (List.filter r_success results) as [|r rs] eqn:E.
  - apply Permutation_nil in Hs. now rewrite Hs.
  - destruct (List.filter r_success results') as [|r' rs'] eqn:E'.
    + symmetry in Hs. apply Permutation_nil in Hs. discriminate.
    + unfold double_mean. f_equal. apply round_double_comp. unfold mean.
      rewrite !length_map, (Permutation_length Hs).
      rewrite (Qsum_perm _ _ (Permutation_map duration_ms Hs)).
      reflexivity.
Qed.

Lemma failed_flag_perm results results' :
  Permutation results results' -> failed_flag results = failed_flag results'.
Proof.
  intros Hperm. unfold failed_flag, failed.
  now rewrite (Permutation_length (filter_perm _ _ _ Hperm)).
Qed.

Lemma export_to_csv_perm results results' cu rpu limit output_file :
  Permutation results results' ->
  export_to_csv results cu rpu limit output_file =
    export_to_csv results' cu rpu limit output_file.
Proof.
  intros Hperm. unfold export_to_csv.
  rewrite (avg_time_ms_perm _ _ Hperm), (failed_flag_perm _ _ Hperm).
  destruct results as [|r rs], results' as [|r' rs']; try reflexivity.
  - apply Permutation_nil in Hperm. discriminate.
  - symmetry in Hperm. apply Permutation_nil in Hperm. discriminate.
Qed.

(** X13. The row [export_to_csv] writes depends on which records there
    are, not on their order in the list: the average, the failed flag and
    the file after the export are the same for two lists with the same
    records. *)
Theorem export_to_csv_ignores_record_order results results' cu rpu limit output_file :
  Permutation results results' ->
  avg_time_ms results = avg_time_ms results'
  /\ failed_flag results = failed_flag results'
  /\ export_to_csv results cu rpu limit output_file =
       export_to_csv results' cu rpu limit output_file.
Proof.
  intros Hperm. split; [now apply avg_time_ms_perm|].
  split; [now apply failed_flag_perm|now apply export_to_csv_perm].
Qed.

Lemma export_to_csv_ignores_record_order_witness :
  export_to_csv [ok_result "user1" (1 # 3); failed_result "user2" 1; ok_result "user3" (1 # 4)]
    3 1 20 fresh_path =
  export_to_csv [ok_result "user3" (1 # 4); ok_result "user1" (1 # 3); failed_result "user2" 1]
    3 1 20 fresh_path.
Proof.
  apply export_to_csv_ignores_record_order.
  apply Permutation_sym, Permutation_cons_append.
Defined.

Lemma run_iterations_schedule cu rpu user_prefix limit its1 its2 :
  Forall2 (fun it1 it2 => same_requests it1 it2 /\ fair it1 /\ fair it2) its1 its2 ->
  forall output_file,
  run_iterations its1 cu rpu user_prefix limit output_file =
    run_iterations its2 cu rpu user_prefix limit output_file.
Proof.
  induction 1 as [|it1 it2 rest1 rest2 (Hsame & Hf1 & Hf2) _ IH]; intros output_file;
    [reflexivity|].
  cbn [run_iterations].
  destruct (run_single_test_schedule cu rpu user_prefix limit it1 it2 Hsame Hf1 Hf2)
    as [(e & -> & ->)|(r1 & r2 & -> & -> & Hperm)]; [reflexivity|].
  rewrite (export_to_csv_perm r1 r2 cu rpu limit output_file Hperm). apply IH.
Qed.

(** X14. The output file does not depend on thread scheduling: two load
    tests that meet the same requests in every iteration leave the same
    file and end the same way, whatever the order in which the tasks of
    each iteration complete. *)
Theorem run_load_test_ignores_completion_order (env1 env2 : nat -> Iteration)
    cu rpu user_prefix limit output_file iterations :
  (forall i, same_requests (env1 i) (env2 i)) ->
  (forall i, fair (env1 i)) ->
  (forall i, fair (env2 i)) ->
  run_load_test env1 cu rpu user_prefix limit output_file iterations =
    run_load_test env2 cu rpu user_prefix limit output_file iterations.
Proof.
  intros Hsame Hf1 Hf2. unfold run_load_test. apply run_iterations_schedule.
  induction (seq 1 (Z.to_nat iterations)) as [|i l IH]; constructor; auto.
Qed.

Lemma run_load_test_ignores_completion_order_witness :
  run_load_test (fun _ => quiet_iteration) 2 1 "user" 20 fresh_path 3 =
    run_load_test (fun _ => quiet_iteration_reversed) 2 1 "user" 20 fresh_path 3.
Proof.
  apply run_load_test_ignores_completion_order.
  - intros i user k. reflexivity.
  - intros i. exact quiet_iteration_fair.
  - intros i. exact quiet_iteration_reversed_fair.
Defined.

(** ** When the load test writes nothing *)

Lemma run_iterations_unwritable cu rpu user_prefix limit its output_file :
  0 < cu -> can_append output_file = false ->
  run_iterations its cu rpu user_prefix limit output_file = (output_file, Returns tt).
Proof.
  intros Hcu Ha. induction its as [|it rest IH]; [reflexivity|].
  cbn [run_iterations]. unfold run_single_test.
  destruct (Z.leb_spec cu 0) as [?|_]; [lia|].
  now rewrite export_to_csv_io_failure.
Qed.

(** X15. A file that cannot be written does not stop the load test: the
    failure of the export is caught in every iteration, the run ends
    normally and the file is left as it was. *)
Theorem run_load_test_survives_io_failure (env : nat -> Iteration)
    cu rpu user_prefix limit output_file iterations :
  0 < cu ->
  can_append output_file = false ->
  run_load_test env cu rpu user_prefix limit output_file iterations =
    (output_file, Returns tt).
Proof. intros Hcu Ha. now apply run_iterations_unwritable. Qed.

Lemma run_load_test_survives_io_failure_witness :
  run_load_test (fun _ => failing_iteration) 2 2 "user" 20 read_only_path 3 =
    (read_only_path, Returns tt).
Proof.
  apply run_load_test_survives_io_failure; [lia|reflexivity].
Defined.

Lemma task_results_no_request it rpu limit user :
  rpu <= 0 -> task_results it rpu limit user = [].
Proof.
  intros Hrpu. pose proof (task_results_length it rpu limit user) as Hlen.
  replace (Z.to_nat rpu) with 0%nat in Hlen by lia.
  now destruct (task_results it rpu limit user).
Qed.

Lemma flat_map_all_nil {A B} (f : A -> list B) (l : list A) :
  (forall a, f a = []) -> flat_map f l = [].
Proof. intros Hf. induction l as [|a l IH]; simpl; [reflexivity|]. now rewrite Hf, IH. Qed.

Lemma run_iterations_no_request cu rpu user_prefix limit its output_file :
  0 < cu -> rpu <= 0 ->
  run_iterations its cu rpu user_prefix limit output_file = (output_file, Returns tt).
Proof.
  intros Hcu Hrpu. induction its as [|it rest IH]; [reflexivity|].
  cbn [run_iterations]. unfold run_single_test.
  destruct (Z.leb_spec cu 0) as [?|_]; [lia|].
  rewrite flat_map_all_nil by (intros; now apply task_results_no_request).
  exact IH.
Qed.

(** X16. [run_load_test] itself checks nothing; only [main] does.
    Called with [concurrent_users <= 0] and at least one iteration, it
    raises the [ValueError] of the thread pool in the first iteration;
    called with [requests_per_user <= 0], every iteration has no result
    and it ends normally.  In both cases the output file is left as it
    was: no header, no row. *)
Theorem run_load_test_unvalidated (env : nat -> Iteration)
    cu rpu user_prefix limit output_file iterations :
  (cu <= 0 -> 0 < iterations ->
     run_load_test env cu rpu user_prefix limit output_file iterations =
       (output_file, Raises (Exception "max_workers must be greater than 0")))
  /\ (0 < cu -> rpu <= 0 ->
     run_load_test env cu rpu user_prefix limit output_file iterations =
       (output_file, Returns tt)).
Proof.
  split.
  - intros Hcu Hit. unfold run_load_test.
    destruct (Z.to_nat iterations) as [|n] eqn:E; [lia|].
    cbn [seq map run_iterations]. unfold run_single_test.
    destruct (Z.leb_spec cu 0) as [_|?]; [reflexivity|lia].
  - intros Hcu Hrpu. now apply run_iterations_no_request.
Qed.

(** ** More on export_to_csv *)

Lemma py_max_ge first others :
  first <= py_max first others /\ Forall (fun n => n <= py_max first others) others.
Proof.
  unfold py_max. revert first. induction others as [|n ns IH]; intros first; simpl.
  - split; [lia|constructor].
  - destruct (IH (Z.max first n)) as [Hfirst Hall]. split; [lia|].
    constructor; [lia|exact Hall].
Qed.

(** X18. A run number is never reused: when the file is read and the
    scan succeeds, the run number chosen for a parameter is greater than
    every RUN found in the rows of that parameter. *)
Theorem next_run_number_is_fresh output_file rows p runs :
  content output_file = Some rows ->
  can_read output_file = true ->
  matching_rows (dict_reader rows) p = Returns runs ->
  Forall (fun n => n < next_run_number output_file p) runs.
Proof.
  intros Hc Hr Hscan. unfold next_run_number. rewrite Hc, Hr, Hscan.
  destruct runs as [|n ns]; [constructor|].
  destruct (py_max_ge n ns) as [Hn Hns].
  constructor; [lia|]. eapply Forall_impl; [exact Hns|]. intros; simpl in *; lia.
Qed.

Lemma next_run_number_is_fresh_witness :
  next_run_number three_row_file 3 = 5 /\
  Forall (fun n => n < next_run_number three_row_file 3) [4; 2].
Proof.
  split; [vm_compute; reflexivity|].
  apply (next_run_number_is_fresh three_row_file
           [header; ["3"; "10ms"; "4"; "0"]; ["5"; "12ms"; "1"; "0"];
            ["3"; "11ms"; "2"; "1"]] 3 [4; 2]).
  - reflexivity.
  - reflexivity.
  - vm_compute. reflexivity.
Defined.

Lemma next_run_number_missing_param_aux output_file fieldnames data p :
  content output_file = Some (fieldnames :: data) ->
  "PARAM" ∉ fieldnames ->
  next_run_number output_file p = 1.
Proof.
  intros Hc Hmissing. unfold next_run_number. rewrite Hc.
  destruct (can_read output_file); [|reflexivity].
  unfold dict_reader.
  destruct (List.filter (fun r => negb (bool_decide (r = []))) data) as [|row rest];
    [reflexivity|].
  cbn [map matching_rows].
  now rewrite (dict_row_missing_column fieldnames row "PARAM" Hmissing).
Qed.

(** X19. A file whose first row does not name a PARAM column never
    advances: whatever its other rows hold, the run number computed for
    any parameter is 1. *)
Theorem next_run_number_without_param_column output_file fieldnames data p :
  content output_file = Some (fieldnames :: data) ->
  "PARAM" ∉ fieldnames ->
  next_run_number output_file p = 1.
Proof. apply next_run_number_missing_param_aux. Qed.

Lemma next_run_number_without_param_column_witness :
  next_run_number
    {| content := Some [["3"; "10ms"; "1"; "0"]; ["3"; "12ms"; "1"; "0"]];
       can_read := true; can_append := true |} 3 = 1.
Proof.
  apply (next_run_number_without_param_column _ ["3"; "10ms"; "1"; "0"]
           [["3"; "12ms"; "1"; "0"]]); [reflexivity|].
  intros H. repeat (apply elem_of_cons in H as [H|H]; [discriminate H|]).
  now apply elem_of_nil in H.
Defined.

Lemma avg_field_not_header_name z : (py_str z ++ "ms")%string <> "PARAM".
Proof.
  generalize (py_str z). intros s H.
  destruct s as [|c1 s]; simpl in H; [discriminate H|]. injection H as _ H.
  destruct s as [|c2 s]; simpl in H; [discriminate H|]. injection H as _ H.
  destruct s as [|c3 s]; simpl in H; [discriminate H|]. injection H as _ H.
  destruct s as [|c4 s]; simpl in H; [discriminate H|]. injection H as _ H.
  destruct s as [|c5 s]; simpl in H; [discriminate H|]. injection H as _ H.
  destruct s; discriminate H.
Qed.

Lemma data_row_without_param p a r f : "PARAM" ∉ data_row p a r f.
Proof.
  unfold data_row. intros H.
  apply elem_of_cons in H as [H|H]; [symmetry in H; now apply py_str_not_header_name in H|].
  apply elem_of_cons in H as [H|H]; [symmetry in H; now apply avg_field_not_header_name in H|].
  apply elem_of_cons in H as [H|H]; [symmetry in H; now apply py_str_not_header_name in H|].
  apply elem_of_cons in H as [H|H]; [symmetry in H; now apply py_str_not_header_name in H|].
  now apply elem_of_nil in H.
Qed.

Lemma export_all_headerless exports :
  Forall (fun e => e_results e <> []) exports ->
  forall output_file rows,
  content output_file = Some rows ->
  can_append output_file = true ->
  (forall first rest, rows = first :: rest -> "PARAM" ∉ first) ->
  file_rows (export_all exports output_file) = rows ++ map first_run_row exports.
Proof.
  induction 1 as [|e rest He _ IH]; intros output_file rows Hc Ha Hfirst.
  - unfold file_rows. simpl. now rewrite Hc, app_nil_r.
  - cbn [export_all foldl]. fold (export_all rest (export_one output_file e)).
    assert (Hrun : next_run_number output_file (e_concurrent_users e) = 1).
    { destruct rows as [|first others].
      - unfold next_run_number. rewrite Hc. now destruct (can_read output_file).
      - apply (next_run_number_missing_param_aux output_file first others);
          [exact Hc|exact (Hfirst first others eq_refl)]. }
    pose proof (export_to_csv_existing (e_results e) (e_concurrent_users e)
                  (e_requests_per_user e) (e_limit e) output_file rows He Ha Hc) as Hrows.
    rewrite Hrun in Hrows. fold (export_one output_file e) in Hrows.
    fold (first_run_row e) in Hrows.
    destruct (export_to_csv_appends (e_results e) (e_concurrent_users e)
                (e_requests_per_user e) (e_limit e) output_file He Ha)
      as (Ha' & [rows' Hc'] & _).
    fold (export_one output_file e) in Ha', Hc'.
    assert (Hrows' : rows' = rows ++ [first_run_row e]).
    { unfold file_rows in Hrows. rewrite Hc' in Hrows. exact Hrows. }
    rewrite (IH (export_one output_file e) rows' Hc' Ha').
    + rewrite Hrows', <- app_assoc. reflexivity.
    + intros first others Heq. rewrite Hrows' in Heq.
      destruct rows as [|r0 rs]; simpl in Heq; injection Heq as <- _.
      * apply data_row_without_param.
      * now apply (Hfirst r0 rs).
Qed.

(** X20. An output file that exists but is empty never gets a header,
    and its run numbers never advance: after any number of exports with
    results, the file holds one row per export, in order, each with
    RUN 1 (the first row written is then read as the header of the
    file). *)
Theorem export_to_existing_empty_file exports output_file :
  Forall (fun e => e_results e <> []) exports ->
  content output_file = Some [] ->
  can_append output_file = true ->
  file_rows (export_all exports output_file) = map first_run_row exports
  /\ header ∉ file_rows (export_all exports output_file).
Proof.
  intros Hne Hc Ha.
  assert (Hrows : file_rows (export_all exports output_file) = map first_run_row exports).
  { rewrite (export_all_headerless exports Hne output_file [] Hc Ha); [reflexivity|].
    discriminate. }
  split; [exact Hrows|]. rewrite Hrows. intros Hin.
  apply list_elem_of_fmap in Hin as (e & Heq & _).
  apply (data_row_without_param (e_concurrent_users e) (avg_time_ms (e_results e)) 1
           (failed_flag (e_results e))).
  unfold first_run_row in Heq. rewrite <- Heq. left.
Qed.

Lemma export_to_existing_empty_file_witness :
  file_rows (export_all sample_exports empty_file) =
    [["3"; "333ms"; "1"; "0"]; ["5"; "0ms"; "1"; "1"]; ["3"; "250ms"; "1"; "1"]].
Proof.
  assert (Hne : Forall (fun e => e_results e <> []) sample_exports)
    by (repeat constructor; discriminate).
  destruct (export_to_existing_empty_file sample_exports empty_file Hne eq_refl eq_refl)
    as [Hrows _].
  rewrite Hrows. vm_compute. reflexivity.
Defined.

Lemma run_after_snoc runs : run_after (runs ++ [run_after runs]) = run_after runs + 1.
Proof.
  destruct runs as [|n ns]; [reflexivity|].
  cbn [app run_after]. unfold py_max. rewrite foldl_app. cbn [foldl].
  fold (py_max n ns). lia.
Qed.

(** X21. On a file that holds the header and well-formed rows, an export
    moves the counter of its own parameter by exactly one and leaves the
    counters of the other parameters alone: the run number of the next
    export with the same [concurrent_users] is the one just written plus
    one, and for any other parameter it is what it was before. *)
Theorem export_advances_own_counter_only results cu rpu limit output_file summaries :
  written_by_exports output_file summaries ->
  results <> [] ->
  next_run_number (export_to_csv results cu rpu limit output_file) cu =
    next_run_number output_file cu + 1
  /\ forall p, p <> cu ->
       next_run_number (export_to_csv results cu rpu limit output_file) p =
         next_run_number output_file p.
Proof.
  intros Hw Hres.
  pose proof (export_to_csv_written results cu rpu limit output_file summaries Hres Hw)
    as Hw'.
  split.
  - rewrite (next_run_number_written _ _ cu Hw'), (next_run_number_written _ _ cu Hw).
    rewrite runs_of_app. unfold runs_of at 2. cbn [List.filter summary_of s_param].
    rewrite Z.eqb_refl. cbn [map]. unfold summary_of. cbn [s_run].
    apply run_after_snoc.
  - intros p Hp.
    rewrite (next_run_number_written _ _ p Hw'), (next_run_number_written _ _ p Hw).
    rewrite runs_of_app. unfold runs_of at 2. cbn [List.filter summary_of s_param].
    destruct (Z.eqb_spec cu p) as [->|_]; [congruence|].
    simpl. now rewrite app_nil_r.
Qed.

Lemma export_advances_own_counter_only_witness :
  next_run_number (export_to_csv [ok_result "user1" (1 # 3)] 3 1 20 fresh_path) 3 = 2
  /\ next_run_number (export_to_csv [ok_result "user1" (1 # 3)] 3 1 20 fresh_path) 5 = 1.
Proof.
  assert (Hw : written_by_exports fresh_path []) by (repeat split).
  assert (Hres : [ok_result "user1" (1 # 3)] <> []) by discriminate.
  destruct (export_advances_own_counter_only [ok_result "user1" (1 # 3)] 3 1 20
              fresh_path [] Hw Hres) as [Hown Hother].
  split; [rewrite Hown; reflexivity|].
  rewrite (Hother 5); [reflexivity|lia].
Defined.

(** ** Bounds on the average *)

Lemma Qsum_bounds (lo hi : Q) (l : list Q) :
  Forall (fun d => lo <= d /\ d <= hi)%Q l ->
  (inject_Z (Z.of_nat (length l)) * lo <= Qsum l /\
   Qsum l <= inject_Z (Z.of_nat (length l)) * hi)%Q.
Proof.
  induction 1 as [|d l [Hlo Hhi] _ [IHlo IHhi]].
  - simpl. split; apply Qle_lteq; right; ring.
  - cbn [length Qsum foldr]. rewrite Nat2Z.inj_succ. unfold Z.succ.
    rewrite inject_Z_plus. fold (Qsum l). split.
    + setoid_replace ((inject_Z (Z.of_nat (length l)) + inject_Z 1) * lo)%Q
        with (lo + inject_Z (Z.of_nat (length l)) * lo)%Q using relation Qeq by ring.
      now apply Qplus_le_compat.
    + setoid_replace ((inject_Z (Z.of_nat (length l)) + inject_Z 1) * hi)%Q
        with (hi + inject_Z (Z.of_nat (length l)) * hi)%Q using relation Qeq by ring.
      now apply Qplus_le_compat.
Qed.

Lemma mean_bounds (lo hi : Q) (l : list Q) :
  l <> [] ->
  Forall (fun d => lo <= d /\ d <= hi)%Q l ->
  (lo <= mean l /\ mean l <= hi)%Q.
Proof.
  intros Hne Hall. destruct (Qsum_bounds lo hi l Hall) as [Hlo Hhi].
  assert (Hpos : (0 < inject_Z (Z.of_nat (length l)))%Q).
  { destruct l; [congruence|]. unfold Qlt. simpl. lia. }
  unfold mean. split.
  - apply Qle_shift_div_l; [exact Hpos|]. now rewrite Qmult_comm.
  - apply Qle_shift_div_r; [exact Hpos|]. now rewrite Qmult_comm.
Qed.

(** X22. The exported average lies between the fastest and the slowest
    successful request: when every successful duration is a double
    between [lo] and [hi] seconds, with [0 <= lo] and [hi <= 2^40],
    AVG_TIME is at least [1000 * lo] rounded down and at most
    [1000 * hi] rounded up, in whole milliseconds; in particular it is
    not negative. *)
Theorem avg_time_ms_between_extremes (results : list RequestResult) (lo hi : Q) :
  successful results <> [] ->
  (0 <= lo)%Q -> (hi <= 2 ^ 40)%Q ->
  Forall (fun r => round_double (r_duration r) == r_duration r /\
                   lo <= r_duration r /\ r_duration r <= hi)%Q (successful results) ->
  Qfloor (1000 * lo) <= avg_time_ms results <= Qceiling (1000 * hi).
Proof.
  intros Hne Hlo Hhi Hall. rewrite (avg_time_ms_float results Hne).
  set (L := Qfloor (1000 * lo)). set (H := Qceiling (1000 * hi)).
  assert (HL : (inject_Z L <= 1000 * lo)%Q) by apply Qfloor_le.
  assert (HH : (1000 * hi <= inject_Z H)%Q) by apply Qle_ceiling.
  assert (HL0 : 0 <= L).
  { unfold L. rewrite <- (Qfloor_Z 0). apply Qfloor_resp_le.
    apply Qmult_le_0_compat; [discriminate|exact Hlo]. }
  assert (Hbig : (inject_Z (1000 * 2 ^ 40) < 2 ^ 53)%Q).
  { rewrite (pow2_inject 53) by lia. rewrite <- Zlt_Qlt. reflexivity. }
  assert (HH53 : (inject_Z H < 2 ^ 53)%Q).
  { apply Qle_lt_trans with (inject_Z (1000 * 2 ^ 40)); [|exact Hbig].
    rewrite <- Zle_Qle. unfold H. rewrite <- (Qceiling_Z (1000 * 2 ^ 40)).
    apply Qceiling_resp_le. rewrite inject_Z_mult, <- (pow2_inject 40) by lia.
    apply Qmult_le_l; [reflexivity|exact Hhi]. }
  assert (Hms : Forall (fun d => inject_Z L <= d /\ d <= inject_Z H)%Q
                  (map duration_ms (successful results))).
  { apply Forall_forall. intros d Hd. apply list_elem_of_fmap in Hd as (r & -> & Hr).
    rewrite Forall_forall in Hall. destruct (Hall r Hr) as (Hdbl & Hrlo & Hrhi).
    unfold duration_ms, double_mul.
    rewrite (round_double_comp _ (r_duration r * 1000)) by (now rewrite Hdbl).
    assert (Hx : (1000 * lo <= r_duration r * 1000)%Q).
    { rewrite (Qmult_comm (r_duration r)). apply Qmult_le_l; [reflexivity|exact Hrlo]. }
    assert (Hy : (r_duration r * 1000 <= 1000 * hi)%Q).
    { rewrite (Qmult_comm (r_duration r)). apply Qmult_le_l; [reflexivity|exact Hrhi]. }
    apply round_double_between.
    - apply Qle_trans with (1000 * lo)%Q; [|exact Hx].
      apply Qmult_le_0_compat; [discriminate|exact Hlo].
    - apply Qle_lt_trans with (inject_Z H); [|exact HH53].
      now apply Qle_trans with (1000 * hi)%Q.
    - now apply Qle_trans with (1000 * lo)%Q.
    - now apply Qle_trans with (1000 * hi)%Q. }
  destruct (mean_bounds (inject_Z L) (inject_Z H) (map duration_ms (successful results)))
    as [Hmlo Hmhi]; [now destruct (successful results)|exact Hms|].
  apply int_trunc_double_mean_between; try assumption.
  - apply Qle_trans with (inject_Z L); [|exact Hmlo].
    change 0%Q with (inject_Z 0). now rewrite <- Zle_Qle.
  - now apply Qle_lt_trans with (inject_Z H).
Qed.

Lemma avg_time_ms_between_extremes_witness :
  8 <= avg_time_ms [ok_result "user1" (1 # 4); failed_result "user2" 1;
                    ok_result "user3" nine_ms] <= 250.
Proof.
  apply (avg_time_ms_between_extremes
           [ok_result "user1" (1 # 4); failed_result "user2" 1; ok_result "user3" nine_ms]
           nine_ms (1 # 4)).
  - discriminate.
  - discriminate.
  - vm_compute. discriminate.
  - repeat constructor; vm_compute; try reflexivity; discriminate.
Defined.

(** ** The error summary of print_results *)

Lemma count_error_keys err summary :
  map fst (count_error err summary) =
    if bool_decide (err ∈ map fst summary) then map fst summary
    else map fst summary ++ [err].
Proof.
  induction summary as [|[key count] rest IH]; [reflexivity|].
  cbn [count_error map fst]. destruct (decide (key = err)) as [->|Hne].
  - rewrite bool_decide_eq_true_2 by reflexivity.
    rewrite (bool_decide_eq_true_2 (err ∈ err :: map fst rest)) by left. reflexivity.
  - rewrite bool_decide_eq_false_2 by exact Hne. cbn [map fst]. rewrite IH.
    destruct (decide (err ∈ map fst rest)) as [Hin|Hnin].
    + rewrite !bool_decide_eq_true_2; [reflexivity|now right|exact Hin].
    + rewrite !bool_decide_eq_false_2; [reflexivity| |exact Hnin].
      intros H. apply elem_of_cons in H as [->|H]; [now apply Hne|now apply Hnin].
Qed.

Lemma count_error_count err k summary :
  summary_count k (count_error err summary) =
    (summary_count k summary + if bool_decide (err = k) then 1 else 0)%nat.
Proof.
  induction summary as [|[key count] rest IH].
  - simpl. reflexivity.
  - cbn [count_error]. destruct (decide (key = err)) as [->|Hne].
    + rewrite bool_decide_eq_true_2 by reflexivity. cbn [summary_count].
      destruct (bool_decide (err = k)); lia.
    + rewrite bool_decide_eq_false_2 by exact Hne. cbn [summary_count].
      destruct (decide (key = k)) as [->|Hk].
      * rewrite !bool_decide_eq_true_2 by reflexivity.
        rewrite bool_decide_eq_false_2 by congruence. lia.
      * rewrite (bool_decide_eq_false_2 (key = k)) by exact Hk. exact IH.
Qed.

Lemma summary_from_keys (l : list RequestResult) :
  forall summary,
  map fst (foldl (fun s r => count_error (r_error r) s) summary l) =
    foldl (fun seen x => if bool_decide (x ∈ seen) then seen else seen ++ [x])
      (map fst summary) (map r_error l).
Proof.
  induction l as [|r l IH]; intros summary; [reflexivity|].
  cbn [foldl map]. now rewrite IH, count_error_keys.
Qed.

Lemma summary_from_count (k : option string) (l : list RequestResult) :
  forall summary,
  summary_count k (foldl (fun s r => count_error (r_error r) s) summary l) =
    (summary_count k summary + length (with_error k l))%nat.
Proof.
  induction l as [|r l IH]; intros summary; [simpl; lia|].
  cbn [foldl]. rewrite IH, count_error_count. unfold with_error. cbn [List.filter].
  destruct (bool_decide (r_error r = k)); simpl; lia.
Qed.

Lemma first_seen_from_NoDup (l seen : list (option string)) :
  NoDup seen ->
  NoDup (foldl (fun seen x => if bool_decide (x ∈ seen) then seen else seen ++ [x]) seen l)
  /\ forall x,
       x ∈ foldl (fun seen x => if bool_decide (x ∈ seen) then seen else seen ++ [x]) seen l
       <-> x ∈ seen \/ x ∈ l.
Proof.
  revert seen. induction l as [|y l IH]; intros seen Hnd.
  - split; [exact Hnd|]. intros x. simpl. rewrite elem_of_nil. tauto.
  - cbn [foldl]. destruct (decide (y ∈ seen)) as [Hin|Hnin].
    + rewrite bool_decide_eq_true_2 by exact Hin. destruct (IH seen Hnd) as [H1 H2].
      split; [exact H1|]. intros x. rewrite H2, elem_of_cons.
      split; [tauto|]. intros [?|[->|?]]; tauto.
    + rewrite bool_decide_eq_false_2 by exact Hnin.
      assert (Hnd' : NoDup (seen ++ [y])).
      { apply NoDup_app. split; [exact Hnd|]. split; [|apply NoDup_singleton].
        intros x Hx Hy. apply list_elem_of_singleton in Hy. now subst. }
      destruct (IH _ Hnd') as [H1 H2]. split; [exact H1|].
      intros x. rewrite H2, elem_of_app, list_elem_of_singleton, elem_of_cons. tauto.
Qed.

Lemma summary_entry (summary : list (option string * nat)) k n :
  NoDup (map fst summary) ->
  ((k, n) ∈ summary <-> k ∈ map fst summary /\ summary_count k summary = n).
Proof.
  induction summary as [|[key count] rest IH]; intros Hnd.
  - simpl. rewrite !elem_of_nil. tauto.
  - cbn [map fst] in Hnd. apply NoDup_cons in Hnd as [Hkey Hnd].
    cbn [map fst summary_count]. rewrite !elem_of_cons, (IH Hnd).
    destruct (decide (key = k)) as [->|Hne].
    + rewrite bool_decide_eq_true_2 by reflexivity. split.
      * intros [[= ->]|[Hin _]]; [tauto|contradiction].
      * intros [_ ->]. now left.
    + rewrite bool_decide_eq_false_2 by exact Hne. split.
      * intros [[= ? ?]|[Hin Hc]]; [congruence|tauto].
      * intros [[?|Hin] Hc]; [congruence|tauto].
Qed.

Lemma with_error_positive k l : (0 < length (with_error k l))%nat <-> k ∈ map r_error l.
Proof.
  unfold with_error. induction l as [|r l IH]; simpl.
  - rewrite elem_of_nil. lia.
  - rewrite elem_of_cons. destruct (decide (r_error r = k)) as [<-|Hne].
    + rewrite bool_decide_eq_true_2 by reflexivity. simpl. split; [auto|lia].
    + rewrite bool_decide_eq_false_2 by exact Hne. rewrite IH.
      split; [auto|]. intros [?|?]; [congruence|assumption].
Qed.

Lemma error_summary_entries (l : list RequestResult) :
  NoDup (map fst (error_summary l))
  /\ map fst (error_summary l) = first_seen (map r_error l)
  /\ forall err n,
       (err, n) ∈ error_summary l <->
       (0 < n)%nat /\ n = length (with_error err l).
Proof.
  assert (Hkeys : map fst (error_summary l) = first_seen (map r_error l))
    by apply (summary_from_keys l []).
  destruct (first_seen_from_NoDup (map r_error l) [] (NoDup_nil_2)) as [Hnd Hmem].
  fold (first_seen (map r_error l)) in Hnd, Hmem. rewrite <- Hkeys in Hnd, Hmem.
  split; [exact Hnd|]. split; [exact Hkeys|].
  intros err n. rewrite (summary_entry _ err n Hnd), Hmem.
  unfold error_summary. rewrite (summary_from_count err l []). cbn [summary_count Nat.add].
  rewrite elem_of_nil, <- with_error_positive. split.
  - intros [[[]|Hpos] <-]. split; [exact Hpos|reflexivity].
  - intros [Hpos ->]. split; [now right|reflexivity].
Qed.

Lemma with_error_failed err results :
  length (with_error err (failed results)) = failures_with err results.
Proof.
  unfold with_error, failed, failures_with.
  induction results as [|r rs IH]; [reflexivity|].
  cbn [List.filter]. destruct (negb (r_success r)); cbn [andb List.filter].
  - destruct (bool_decide (r_error r = err)); simpl; now rewrite IH.
  - exact IH.
Qed.

Lemma omap_counted_error_summary (summary : list (option string * nat)) :
  omap counted_error (map (fun entry => ErrorCount (snd entry) (fst entry)) summary) =
    map fst summary.
Proof.
  induction summary as [|[k c] rest IH]; [reflexivity|].
  cbn [map omap list_omap counted_error fst snd]. now rewrite <- IH.
Qed.

(** X23. When some requests succeeded, [print_results] ends with one
    count line per distinct error of the failed requests: the line of an
    error carries the number of failed requests with exactly that error,
    an error that did not occur has no line, and the lines come in the
    order in which the errors first occurred, each error once. *)
Theorem print_results_error_counts results total_duration iteration :
  successful results <> [] ->
  (forall err n,
     ErrorCount n err ∈ print_results results total_duration iteration <->
     (0 < n)%nat /\ n = failures_with err results)
  /\ omap counted_error (print_results results total_duration iteration) =
       first_seen (map r_error (failed results))
  /\ NoDup (omap counted_error (print_results results total_duration iteration)).
Proof.
  intros Hs. destruct (error_summary_entries (failed results)) as (Hnd & Hkeys & Hentry).
  assert (Hout : exists stats,
    print_results results total_duration iteration =
      stats ++ match failed results with
               | [] => []
               | _ => ErrorsTitle (length (failed results)) ::
                      map (fun entry => ErrorCount (snd entry) (fst entry))
                          (error_summary (failed results))
               end
    /\ omap counted_error stats = []
    /\ forall err n, ErrorCount n err ∉ stats).
  { unfold print_results. destruct results as [|r rs]; [now contradiction Hs|].
    destruct (successful (r :: rs)) as [|s ss]; [now contradiction Hs|].
    eexists. split; [reflexivity|]. split; [reflexivity|].
    intros err n H.
    repeat (apply elem_of_cons in H as [H|H]; [discriminate H|]).
    now apply elem_of_nil in H. }
  destruct Hout as (stats & -> & Hstats & Hnone).
  assert (Hlines : omap counted_error
            match failed results with
            | [] => []
            | _ => ErrorsTitle (length (failed results)) ::
                   map (fun entry => ErrorCount (snd entry) (fst entry))
                       (error_summary (failed results))
            end = map fst (error_summary (failed results))).
  { destruct (failed results) eqn:E; [reflexivity|].
    cbn [omap counted_error]. apply omap_counted_error_summary. }
  split; [|rewrite omap_app, Hstats, Hlines; cbn [app]; split; [exact Hkeys|exact Hnd]].
  intros err n. rewrite elem_of_app, <- with_error_failed, <- Hentry. split.
  - intros [H|H]; [now apply Hnone in H|].
    destruct (failed results) eqn:E; [now apply elem_of_nil in H|].
    apply elem_of_cons in H as [H|H]; [discriminate H|].
    apply list_elem_of_fmap in H as ([k c] & [= -> ->] & Hin). exact Hin.
  - intros Hin. right.
    destruct (failed results) eqn:E; [now apply elem_of_nil in Hin|].
    right. apply list_elem_of_fmap. exists (err, n). split; [reflexivity|exact Hin].
Qed.

Lemma print_results_error_counts_witness :
  ErrorCount 2 (Some "backend unavailable") ∈ print_results user2_fails 3 1
  /\ omap counted_error (print_results user2_fails 3 1) = [Some "backend unavailable"].
Proof.
  assert (Hs : successful user2_fails <> []) by discriminate.
  destruct (print_results_error_counts user2_fails 3 1 Hs) as (Hcount & Horder & _).
  split.
  - apply Hcount. split; [lia|reflexivity].
  - rewrite Horder. reflexivity.
Defined.

Lemma failed_all results : successful results = [] -> failed results = results.
Proof.
  unfold successful, failed. induction results as [|r rs IH]; [reflexivity|].
  cbn [List.filter]. destruct (r_success r); [discriminate|].
  intros H. cbn [negb]. now rewrite IH.
Qed.

(** X24. When no request succeeded, [print_results] prints the notice
    that all requests failed and then one line per request, in the order
    of the list, with the user and the error of that request; it prints
    no statistics.  With no record at all it prints a single notice. *)
Theorem print_results_all_failed results total_duration iteration :
  successful results = [] ->
  print_results results total_duration iteration =
    match results with
    | [] => [NothingToAnalyse]
    | _ => AllRequestsFailed :: map (fun r => FailureOf (r_user r) (r_error r)) results
    end.
Proof.
  intros Hs. unfold print_results. rewrite Hs, (failed_all results Hs).
  now destruct results.
Qed.

Lemma print_results_all_failed_witness :
  print_results [failed_result "user1" 1; failed_result "user2" 2] 3 1 =
    [AllRequestsFailed; FailureOf "user1" (Some "backend unavailable");
     FailureOf "user2" (Some "backend unavailable")].
Proof.
  now rewrite (print_results_all_failed [failed_result "user1" 1; failed_result "user2" 2]
                 3 1 eq_refl).
Defined.

(** ** delete_all_posts with any batch size *)

Lemma batches_none fuel b : batches fuel 0 b = [].
Proof. now destruct fuel. Qed.

Lemma batches_closed_form b :
  (0 < b)%nat ->
  forall fuel n, (n <= fuel)%nat -> batches fuel n b = full_then_rest n b.
Proof.
  intros Hb. unfold full_then_rest.
  induction fuel as [|fuel IH]; intros n Hn.
  - replace n with 0%nat by lia. rewrite Nat.Div0.div_0_l, Nat.Div0.mod_0_l. reflexivity.
  - cbn [batches]. destruct (Nat.eqb_spec n 0) as [->|Hnz].
    { rewrite Nat.Div0.div_0_l, Nat.Div0.mod_0_l. reflexivity. }
    destruct (Nat.lt_ge_cases n b) as [Hlt|Hge].
    + rewrite Nat.min_r by lia. rewrite Nat.sub_diag, batches_none.
      rewrite Nat.div_small, Nat.mod_small by lia.
      destruct (Nat.eqb_spec n 0); [lia|reflexivity].
    + rewrite Nat.min_l by lia. rewrite IH by lia.
      assert (Hdiv : (n / b = S ((n - b) / b))%nat).
      { replace n with ((n - b) + 1 * b)%nat at 1 by lia.
        rewrite Nat.div_add by lia. lia. }
      assert (Hmod : ((n - b) mod b = n mod b)%nat).
      { replace n with ((n - b) + 1 * b)%nat at 2 by lia.
        now rewrite Nat.Div0.mod_add. }
      rewrite Hdiv, Hmod. reflexivity.
Qed.

Lemma list_sum_repeat b k : list_sum (repeat b k) = (k * b)%nat.
Proof. induction k as [|k IH]; simpl; [reflexivity|]. rewrite IH. lia. Qed.

(** X25. For every positive batch size, [delete_all_posts] deletes all
    the Post entities in [n / batch_size] passes of [batch_size] entities
    followed, when the division leaves a remainder, by one pass with the
    remainder; the passes delete [n] entities in all. *)
Theorem delete_all_posts_any_batch_size (batch_size : nat) (store : gset nat) :
  (0 < batch_size)%nat ->
  delete_all_posts batch_size store =
    (full_then_rest (size store) batch_size, ∅)
  /\ list_sum (fst (delete_all_posts batch_size store)) = size store
  /\ Forall (fun pass => 0 < pass <= batch_size)%nat
            (fst (delete_all_posts batch_size store)).
Proof.
  intros Hb.
  assert (Hrun : delete_all_posts batch_size store =
                 (full_then_rest (size store) batch_size, ∅)).
  { unfold delete_all_posts.
    rewrite (delete_loop_batches batch_size Hb (size store) store []) by lia.
    cbn [app]. now rewrite (batches_closed_form batch_size Hb). }
  rewrite Hrun. cbn [fst]. split; [reflexivity|]. unfold full_then_rest.
  pose proof (Nat.div_mod_eq (size store) batch_size) as Hdm.
  pose proof (Nat.mod_upper_bound (size store) batch_size ltac:(lia)) as Hlt.
  split.
  - rewrite list_sum_app, list_sum_repeat.
    destruct (Nat.eqb_spec (size store mod batch_size) 0); simpl; lia.
  - apply Forall_app. split.
    + apply Forall_forall. intros pass Hin. apply list_elem_of_In, repeat_spec in Hin. lia.
    + destruct (Nat.eqb_spec (size store mod batch_size) 0); repeat constructor; lia.
Qed.

Lemma delete_all_posts_any_batch_size_witness :
  delete_all_posts 7 (list_to_set (seq 0 20)) = ([7; 7; 6]%nat, ∅).
Proof.
  assert (Hb : (0 < 7)%nat) by lia.
  destruct (delete_all_posts_any_batch_size 7 (list_to_set (seq 0 20)) Hb) as [Hrun _].
  rewrite Hrun. vm_compute. reflexivity.
Defined.

(** X26. With a batch size of 0 the first fetch returns nothing, so the
    loop ends at once: no pass is made and every Post entity is still
    there when the script reports that all posts were deleted. *)
Theorem delete_all_posts_batch_size_zero (store : gset nat) :
  delete_all_posts 0 store = ([], store).
Proof. unfold delete_all_posts. now rewrite delete_loop_step. Qed.
